(** * WiseMind: the user-listing view pipeline and the login gate

    A shallow embedding of [src/home.js] (the [App] component: filtering,
    sorting and paginating the fetched users, and its event handlers) and of
    the login screen ([handleLogin] and [validateEmail]), with the
    properties of the specification proved or refuted on it.

    Modelling conventions.
    - A JavaScript value of the fetched JSON is a [JsValue]; an object is a
      finite map from field names to values.  A number is an integer [Z]
      (the JSON numbers of the user records are integers); [NaN] only shows
      up as the result [None] of [ToNumber].
    - A string is a sequence of code units below 256 (Latin-1), which is
      where [toLowerCase] and the class [\s] are modelled exactly.
    - Property access [v[k]] reads a property of the value's own (a field
      of an object, the [length] and the code units of a string) and
      otherwise a member that the language gives the value (the methods a
      record inherits from [Object.prototype], those of a string, and so
      on).  The built-in objects reached in this way are values of their
      own kind; which of them a string, a number or a built-in object
      offers depends on the engine, an [Engine] in which the development
      is parametric.  Reading a member yields a value (an accessor that
      throws is not modelled), and no field of the data shadows a built-in
      conversion method.
    - Code that can throw returns a [Completion]; the handlers thread the
      component state explicitly. *)

From Stdlib Require Import ZArith QArith Qround Lia Ascii String.
From stdpp Require Import gmap strings list fin_maps sorting.
From stdpp Require Import pretty.

#[local] Set Warnings "-register-all".
#[local] Open Scope Z_scope.

(** ** Completions: normal results and thrown errors *)

Inductive JsError : Type :=
  | TypeError.

Inductive Completion (A : Type) : Type :=
  | Ok (a : A)
  | Throw (e : JsError).

Arguments Ok {A} a.
Arguments Throw {A} e.

Definition bind {A B : Type} (c : Completion A) (k : A → Completion B)
  : Completion B :=
  match c with
  | Ok a => k a
  | Throw e => Throw e
  end.

Notation "'let*' x ':=' c 'in' k" := (bind c (fun x => k))
  (at level 10, x name, c at level 100, k at level 200).

Definition returns {A : Type} (c : Completion A) : Prop :=
  ∃ a, c = Ok a.

(** ** Values *)

(** A value of the fetched JSON is [undefined] (an absent one), [null], a
    boolean, a number, a string or an object.  [JBuiltin] is an object of
    the language itself, which no JSON holds and only a property read can
    reach: a built-in function ([callable]) or a prototype object, named
    by [id]. *)
Inductive JsValue : Type :=
  | JUndefined
  | JNull
  | JBool (b : bool)
  | JNum (z : Z)
  | JStr (s : string)
  | JObj (fields : gmap string JsValue)
  | JBuiltin (callable : bool) (id : string).

(** A record of the collection: one object of the fetched array. *)
Abbreviation User := (gmap string JsValue).

(** [ToBoolean]: the falsy values are [undefined], [null], [false], [0]
    and the empty string. *)
Definition truthy (v : JsValue) : bool :=
  match v with
  | JUndefined | JNull => false
  | JBool b => b
  | JNum z => negb (z =? 0)
  | JStr s => negb (String.eqb s "")
  | JObj _ => true
  | JBuiltin _ _ => true
  end.

(** [typeof v] *)
Definition typeof (v : JsValue) : string :=
  match v with
  | JUndefined => "undefined"
  | JNull => "object"
  | JBool _ => "boolean"
  | JNum _ => "number"
  | JStr _ => "string"
  | JObj _ => "object"
  | JBuiltin callable _ => if callable then "function" else "object"
  end.

(** ** Property access *)

(** What the engine provides.  [builtinMember v k] is the member named [k]
    that [v] gets from the language, [undefined] when there is none: for a
    record, a string, a number or a boolean the member it inherits from
    its prototype chain, for a built-in object any member it has.
    [builtinToPrimitive callable id] is what [ToPrimitive] makes of a
    built-in object: the source text of a function, the value a prototype
    object wraps. *)
Class Engine : Type := {
  builtinMember : JsValue → string → JsValue;
  builtinToPrimitive : bool → string → JsValue
}.

(** The property names of [Object.prototype], which every record
    inherits. *)
Definition ObjectPrototype : list string :=
  [ "constructor"; "hasOwnProperty"; "isPrototypeOf"; "propertyIsEnumerable";
    "toLocaleString"; "toString"; "valueOf"; "__proto__";
    "__defineGetter__"; "__defineSetter__"; "__lookupGetter__";
    "__lookupSetter__" ].

(** The code unit of [s] under the property name [k]: [k] is the decimal
    numeral of an index below the length, [i] being the index of the first
    code unit of [s]. *)
Fixpoint unitAt (i : nat) (s : string) (k : string) : option ascii :=
  match s with
  | EmptyString => None
  | String c s' => if String.eqb (pretty i) k then Some c else unitAt (S i) s' k
  end.

(** The properties of a value's own: the fields of an object; the [length]
    of a string and its code units under their indices. *)
Definition ownProperty (v : JsValue) (k : string) : option JsValue :=
  match v with
  | JObj fields => fields !! k
  | JStr s =>
      if String.eqb k "length" then Some (JNum (Z.of_nat (String.length s)))
      else (fun c => JStr (String c EmptyString)) <$> unitAt 0 s k
  | _ => None
  end.

Section PropertyAccess.

Context {engine : Engine}.

(** What [v] offers under [k] beyond its own properties. *)
Definition inheritedProperty (v : JsValue) (k : string) : JsValue :=
  match v with
  | JObj _ =>
      if bool_decide (k ∈ ObjectPrototype) then builtinMember v k
      else JUndefined
  | _ => builtinMember v k
  end.

(** [v[k]]: reading a property of [undefined] or [null] throws; any other
    value yields its own property [k] if it has one, and otherwise what it
    inherits, [undefined] when there is nothing. *)
Definition getProp (v : JsValue) (k : string) : Completion JsValue :=
  match v with
  | JUndefined | JNull => Throw TypeError
  | _ => Ok (default (inheritedProperty v k) (ownProperty v k))
  end.

End PropertyAccess.

(** ** Strings *)

Definition toLowerCase_unit (c : ascii) : ascii :=
  let n := N_of_ascii c in
  if ((65 <=? n)%N && (n <=? 90)%N)
     || ((192 <=? n)%N && (n <=? 222)%N && negb (n =? 215)%N)
  then ascii_of_N (n + 32)
  else c.

(** [s.toLowerCase()] *)
Fixpoint toLowerCase (s : string) : string :=
  match s with
  | EmptyString => EmptyString
  | String c s' => String (toLowerCase_unit c) (toLowerCase s')
  end.

Fixpoint startsWith (s sub : string) : bool :=
  match sub, s with
  | EmptyString, _ => true
  | String _ _, EmptyString => false
  | String a sub', String b s' => Ascii.eqb a b && startsWith s' sub'
  end.

(** [s.includes(sub)] *)
Fixpoint includes (s sub : string) : bool :=
  startsWith s sub ||
  match s with
  | EmptyString => false
  | String _ s' => includes s' sub
  end.

(** [s.split(sep)] for a separator of one code unit. *)
Fixpoint String_split (sep : ascii) (s : string) : list string :=
  match s with
  | EmptyString => [EmptyString]
  | String c s' =>
      if Ascii.eqb c sep then EmptyString :: String_split sep s'
      else match String_split sep s' with
           | seg :: segs => String c seg :: segs
           | [] => [String c EmptyString]
           end
  end.

(** [xs.reduce(f, init)] with a callback that may throw. *)
Fixpoint reduce {A B : Type} (f : B → A → Completion B) (xs : list A)
    (acc : B) : Completion B :=
  match xs with
  | [] => Ok acc
  | x :: xs' => let* acc' := f acc x in reduce f xs' acc'
  end.

(** The method call [v.toLowerCase()]: only a string has the method. *)
Definition call_toLowerCase (v : JsValue) : Completion string :=
  match v with
  | JStr s => Ok (toLowerCase s)
  | _ => Throw TypeError
  end.

(** ** The nested field accessor (home.js, line 83) *)

Section NestedValue.

Context {engine : Engine}.

(** The reducer callback [(acc, part) => acc && acc[part]]. *)
Definition step (acc : JsValue) (part : string) : Completion JsValue :=
  if truthy acc then getProp acc part else Ok acc.

Definition getNestedValue (obj : JsValue) (path : string)
  : Completion JsValue :=
  reduce step (String_split "." path) obj.

End NestedValue.


(** [sep] occurs in [s]. *)
Fixpoint mentions (sep : ascii) (s : string) : bool :=
  match s with
  | EmptyString => false
  | String c s' => Ascii.eqb c sep || mentions sep s'
  end.

(** ** Relational comparison *)

Section Comparison.

Context {engine : Engine}.

(** The numeric value of a string ([StringToNumber] of ECMAScript), with
    [None] for [NaN].  It only matters when a string meets a value that is
    not a string; the development is parametric in it. *)
Variable StringToNumber : string → option Z.

(** [ToPrimitive]: an object of the data converts to the string that
    [Object.prototype.toString] gives, a built-in object as the engine
    has it. *)
Definition ToPrimitive (v : JsValue) : JsValue :=
  match v with
  | JObj _ => JStr "[object Object]"
  | JBuiltin callable id => builtinToPrimitive callable id
  | _ => v
  end.

(** [ToNumber] of a primitive, [None] standing for [NaN]. *)
Definition ToNumber (v : JsValue) : option Z :=
  match v with
  | JUndefined => None
  | JNull => Some 0
  | JBool b => Some (if b then 1 else 0)
  | JNum z => Some z
  | JStr s => StringToNumber s
  | JObj _ | JBuiltin _ _ => None
  end.

(** [x < y]: two strings compare by code units, anything else
    numerically, and a comparison with [NaN] is false. *)
Definition lessThan (x y : JsValue) : bool :=
  match ToPrimitive x, ToPrimitive y with
  | JStr a, JStr b => String.ltb a b
  | px, py =>
      match ToNumber px, ToNumber py with
      | Some a, Some b => a <? b
      | _, _ => false
      end
  end.

(** ** The sort comparator (home.js, lines 81-96) *)

Inductive SortDirection : Type :=
  | ascending
  | descending.

(** [valA] and [valB] (lines 85-86): the value at the path, case-folded
    when it is a string. *)
Definition sortValue (sortColumn : string) (r : JsValue)
  : Completion JsValue :=
  let* v := getNestedValue r sortColumn in
  if String.eqb (typeof v) "string"
  then let* v' := getNestedValue r sortColumn in
       let* s := call_toLowerCase v' in
       Ok (JStr s)
  else getNestedValue r sortColumn.

Definition comparator (sortColumn : string) (sortDirection : SortDirection)
    (a b : User) : Completion Z :=
  let* valA := sortValue sortColumn (JObj a) in
  let* valB := sortValue sortColumn (JObj b) in
  if lessThan valA valB then
    Ok (match sortDirection with ascending => -1 | descending => 1 end)
  else if lessThan valB valA then
    Ok (match sortDirection with ascending => 1 | descending => -1 end)
  else Ok 0.

End Comparison.

(** ** Array methods *)

(** [xs.filter(p)] with a callback that may throw. *)
Fixpoint Array_filter {A : Type} (p : A → Completion bool) (xs : list A)
  : Completion (list A) :=
  match xs with
  | [] => Ok []
  | x :: xs' =>
      let* keep := p x in
      let* rest := Array_filter p xs' in
      Ok (if keep then x :: rest else rest)
  end.

(** [xs.sort(comparefn)].  ECMAScript asks for a stable sort and leaves the
    sequence of calls to [comparefn] to the engine; the model is the stable
    insertion sort.  For a consistent comparator every stable sort gives
    the same array ([stable_sort_unique] and [sortStage_determined]
    below).  The elements here are records: the special place the sort
    gives to [undefined] elements does not come into play. *)
Fixpoint sort_insert {A : Type} (comparefn : A → A → Completion Z) (x : A)
    (sorted : list A) : Completion (list A) :=
  match sorted with
  | [] => Ok [x]
  | y :: sorted' =>
      let* c := comparefn x y in
      if c <=? 0 then Ok (x :: y :: sorted')
      else let* rest := sort_insert comparefn x sorted' in Ok (y :: rest)
  end.

Fixpoint Array_sort {A : Type} (comparefn : A → A → Completion Z)
    (xs : list A) : Completion (list A) :=
  match xs with
  | [] => Ok []
  | x :: xs' =>
      let* sorted := Array_sort comparefn xs' in
      sort_insert comparefn x sorted
  end.

(** [xs.slice(start, end)] for integer arguments: a negative index counts
    from the end, and both bounds are clamped to the array. *)
Definition relative_index (len k : Z) : Z :=
  if k <? 0 then Z.max (len + k) 0 else Z.min k len.

Definition Array_slice {A : Type} (xs : list A) (start end_ : Z) : list A :=
  let len := Z.of_nat (length xs) in
  let k := relative_index len start in
  let final := relative_index len end_ in
  take (Z.to_nat (final - k)) (drop (Z.to_nat k) xs).

(** [Math.ceil(x)] on an exact quotient. *)
Definition Math_ceil (x : Q) : Z := Qceiling x.

(** ** The view pipeline (home.js, lines 66-106) *)

Section Pipeline.

Context {engine : Engine}.

Variable StringToNumber : string → option Z.

(** Stage 1, lines 69-77. *)
Definition filterStage (users : list User) (searchQuery : string)
  : Completion (list User) :=
  let filteredUsers := users in
  if truthy (JStr searchQuery) then
    let lowercasedQuery := toLowerCase searchQuery in
    Array_filter
      (fun user =>
         let* name := getProp (JObj user) "name" in
         let* lowered := call_toLowerCase name in
         Ok (includes lowered lowercasedQuery))
      filteredUsers
  else Ok filteredUsers.

(** Stage 2, lines 80-97. *)
Definition sortStage (filteredUsers : list User) (sortColumn : string)
    (sortDirection : SortDirection) : Completion (list User) :=
  if truthy (JStr sortColumn) then
    Array_sort (comparator StringToNumber sortColumn sortDirection)
               filteredUsers
  else Ok filteredUsers.

Definition processedUsers (users : list User) (searchQuery : string)
    (sortColumn : string) (sortDirection : SortDirection)
  : Completion (list User) :=
  let* filteredUsers := filterStage users searchQuery in
  sortStage filteredUsers sortColumn sortDirection.

End Pipeline.

(** Stage 3, lines 102-106. *)
Definition paginatedUsers {A : Type} (processed : list A)
    (page itemsPerPage : Z) : list A :=
  let from := page * itemsPerPage in
  let to := from + itemsPerPage in
  Array_slice processed from to.

(** [numberOfPages] of the pagination control, line 177. *)
Definition numberOfPages {A : Type} (processed : list A) (itemsPerPage : Z)
  : Z :=
  Math_ceil (inject_Z (Z.of_nat (length processed)) / inject_Z itemsPerPage).

(** ** Component state and handlers (home.js, lines 26-39 and 110-122) *)

Record AppState : Type := mkAppState {
  users : list User;
  searchQuery : string;
  sortColumn : string;
  sortDirection : SortDirection;
  page : Z;
  itemsPerPage : Z
}.

Definition initialState : AppState :=
  {| users := []; searchQuery := ""; sortColumn := "name";
     sortDirection := ascending; page := 0; itemsPerPage := 5 |}.

Definition itemsPerPageOptions : list Z := [5; 10; 15].

Definition setSearchQuery (q : string) (st : AppState) : AppState :=
  {| users := users st; searchQuery := q; sortColumn := sortColumn st;
     sortDirection := sortDirection st; page := page st;
     itemsPerPage := itemsPerPage st |}.

Definition setSortColumn (c : string) (st : AppState) : AppState :=
  {| users := users st; searchQuery := searchQuery st; sortColumn := c;
     sortDirection := sortDirection st; page := page st;
     itemsPerPage := itemsPerPage st |}.

Definition setSortDirection (f : SortDirection → SortDirection)
    (st : AppState) : AppState :=
  {| users := users st; searchQuery := searchQuery st;
     sortColumn := sortColumn st; sortDirection := f (sortDirection st);
     page := page st; itemsPerPage := itemsPerPage st |}.

Definition setPage (p : Z) (st : AppState) : AppState :=
  {| users := users st; searchQuery := searchQuery st;
     sortColumn := sortColumn st; sortDirection := sortDirection st;
     page := p; itemsPerPage := itemsPerPage st |}.

Definition setItemsPerPage (n : Z) (st : AppState) : AppState :=
  {| users := users st; searchQuery := searchQuery st;
     sortColumn := sortColumn st; sortDirection := sortDirection st;
     page := page st; itemsPerPage := n |}.

Definition handleSort (column : string) (st : AppState) : AppState :=
  if String.eqb (sortColumn st) column then
    setSortDirection
      (fun prev => match prev with
                   | ascending => descending
                   | descending => ascending
                   end) st
  else setSortDirection (fun _ => ascending) (setSortColumn column st).

Definition handleSearch (query : string) (st : AppState) : AppState :=
  setPage 0 (setSearchQuery query st).

(** The callbacks handed to [DataTable.Pagination], lines 178 and 182. *)
Definition onPageChange (p : Z) (st : AppState) : AppState := setPage p st.

Definition onItemsPerPageChange (n : Z) (st : AppState) : AppState :=
  setItemsPerPage n st.

(** ** Regular expressions, matched by derivatives *)

Inductive regex : Type :=
  | Void
  | Eps
  | Class (p : ascii → bool)
  | Cat (r s : regex)
  | Alt (r s : regex)
  | Star (r : regex).

Definition Plus (r : regex) : regex := Cat r (Star r).

Fixpoint nullable (r : regex) : bool :=
  match r with
  | Void => false
  | Eps => true
  | Class _ => false
  | Cat r s => nullable r && nullable s
  | Alt r s => nullable r || nullable s
  | Star _ => true
  end.

Fixpoint deriv (c : ascii) (r : regex) : regex :=
  match r with
  | Void => Void
  | Eps => Void
  | Class p => if p c then Eps else Void
  | Cat r s =>
      if nullable r then Alt (Cat (deriv c r) s) (deriv c s)
      else Cat (deriv c r) s
  | Alt r s => Alt (deriv c r) (deriv c s)
  | Star r => Cat (deriv c r) (Star r)
  end.

(** [/^r$/.test(s)]: the whole string is a word of [r]. *)
Fixpoint regex_test (r : regex) (s : string) : bool :=
  match s with
  | EmptyString => nullable r
  | String c s' => regex_test (deriv c r) s'
  end.

(** The class [\s] on code units below 256. *)
Definition is_space (c : ascii) : bool :=
  let n := N_of_ascii c in
  ((9 <=? n)%N && (n <=? 13)%N) || (n =? 32)%N || (n =? 160)%N.

(** The class [[^\s@]]. *)
Definition not_space_at (c : ascii) : bool :=
  negb (is_space c || Ascii.eqb c "@").

(** ** The login screen *)

(** [/^[^\s@]+@[^\s@]+\.[^\s@]+$/] *)
Definition emailRegex : regex :=
  Cat (Plus (Class not_space_at))
      (Cat (Class (Ascii.eqb "@"))
           (Cat (Plus (Class not_space_at))
                (Cat (Class (Ascii.eqb "."))
                     (Plus (Class not_space_at))))).

Definition validateEmail (email : string) : bool :=
  regex_test emailRegex email.

(** [JSON.stringify] of a string, and of the object [{ email }]. *)
Definition hex_digit (n : N) : ascii :=
  ascii_of_N (if (n <? 10)%N then 48 + n else 87 + n).

Definition dquote : ascii := "034".
Definition backslash : ascii := "092".

Definition JSON_escape (c : ascii) : string :=
  let n := N_of_ascii c in
  if (n =? 8)%N then String backslash "b"
  else if (n =? 9)%N then String backslash "t"
  else if (n =? 10)%N then String backslash "n"
  else if (n =? 12)%N then String backslash "f"
  else if (n =? 13)%N then String backslash "r"
  else if (n =? 34)%N then String backslash (String dquote "")
  else if (n =? 92)%N then String backslash (String backslash "")
  else if (n <? 32)%N then
    String backslash
      (String "u" (String "0" (String "0"
         (String (hex_digit (n / 16)) (String (hex_digit (n mod 16)) "")))))
  else String c "".

Fixpoint JSON_escape_all (s : string) : string :=
  match s with
  | EmptyString => EmptyString
  | String c s' => (JSON_escape c ++ JSON_escape_all s')%string
  end.

Definition JSON_quote (s : string) : string :=
  String dquote (JSON_escape_all s ++ String dquote "")%string.

Definition JSON_stringify_email (email : string) : string :=
  ("{" ++ JSON_quote "email" ++ ":" ++ JSON_quote email ++ "}")%string.

(** What the login handler acts on: the key/value store behind
    [AsyncStorage], the current route of the navigator, and the alerts
    shown so far (title and message). *)
Record LoginWorld : Type := mkLoginWorld {
  storage : gmap string string;
  route : string;
  alerts : list (string * string)
}.

Definition Alert_alert (title message : string) (w : LoginWorld)
  : LoginWorld :=
  {| storage := storage w; route := route w;
     alerts := alerts w ++ [(title, message)] |}.

Definition AsyncStorage_setItem (key value : string) (w : LoginWorld)
  : LoginWorld :=
  {| storage := <[key := value]> (storage w); route := route w;
     alerts := alerts w |}.

Definition AsyncStorage_getItem (key : string) (w : LoginWorld)
  : option string :=
  storage w !! key.

Definition navigation_replace (screen : string) (w : LoginWorld)
  : LoginWorld :=
  {| storage := storage w; route := screen; alerts := alerts w |}.

(** [handleLogin], lines 29-47 of the login screen, on the field values
    [email] and [pass]. *)
Definition handleLogin (email pass : string) (w : LoginWorld) : LoginWorld :=
  if negb (truthy (JStr email)) || negb (truthy (JStr pass)) then
    Alert_alert "Validation Error" "Please enter both email and password" w
  else if negb (validateEmail email) then
    Alert_alert "Invalid Email" "Please enter a valid email address" w
  else if String.eqb email "test@gmail.com" && String.eqb pass "pass123" then
    navigation_replace "Home"
      (AsyncStorage_setItem "user" (JSON_stringify_email email) w)
  else Alert_alert "Login Failed" "Invalid email or password" w.

(** The session check at mount, lines 14-22. *)
Definition checkLoginStatus (w : LoginWorld) : LoginWorld :=
  match AsyncStorage_getItem "user" w with
  | Some user => if truthy (JStr user) then navigation_replace "Home" w else w
  | None => w
  end.

(** ** Vocabulary of the statements *)

(** The [name] of the record [u] is the string [n]. *)
Definition hasName (u : User) (n : string) : Prop :=
  u !! "name" = Some (JStr n).

(** [sub] occurs in [s] as a substring. *)
Definition substring_of (sub s : string) : Prop :=
  ∃ pre post : string, s = (pre ++ sub ++ post)%string.

(** The name of [u], case-folded, contains the case-folded [term]. *)
Definition nameContains (term : string) (u : User) : Prop :=
  ∃ n, hasName u n ∧ substring_of (toLowerCase term) (toLowerCase n).

(** The same test as a function on records. *)
Definition nameMatches (term : string) (u : User) : bool :=
  match u !! "name" with
  | Some (JStr n) => includes (toLowerCase n) (toLowerCase term)
  | _ => false
  end.

(** The page index lies among the pages of the current view. *)
Definition pageInRange {A : Type} (processed : list A) (page size : Z)
  : Prop :=
  0 ≤ page ≤ numberOfPages processed size - 1.

(** Twelve users, as the listing has them after the fetch. *)
Definition twelveUsers : list User :=
  (fun i => {[ "id" := JNum i; "name" := JStr "user" ]}) <$> seqZ 1 12.

(** The outcome of a login attempt that is turned down with one alert. *)
Definition rejectedWith (title message : string) (w w' : LoginWorld) : Prop :=
  storage w' = storage w ∧ route w' = route w ∧
  alerts w' = alerts w ++ [(title, message)].

(** ** A functional reading of the sort *)

(** The comparator never throws (lemma [comparator_pure]), so the sort has
    a reading on integer-valued comparison functions. *)
Fixpoint insert_by {A : Type} (f : A → A → Z) (x : A) (sorted : list A)
  : list A :=
  match sorted with
  | [] => [x]
  | y :: sorted' =>
      if f x y <=? 0 then x :: y :: sorted' else y :: insert_by f x sorted'
  end.

Fixpoint sort_by {A : Type} (f : A → A → Z) (xs : list A) : list A :=
  match xs with
  | [] => []
  | x :: xs' => insert_by f x (sort_by f xs')
  end.

(** With respect to a comparison function: [a] may stand before [b], and
    [a] ties with [b]. *)
Definition le_by {A : Type} (f : A → A → Z) (a b : A) : Prop := f a b ≤ 0.

Definition tie_by {A : Type} (f : A → A → Z) (a b : A) : Prop := f a b = 0.

#[global] Instance tie_by_decision {A : Type} (f : A → A → Z) a b :
  Decision (tie_by f a b) := Z.eq_dec (f a b) 0.

(** The numeric branch of [<], [None] being [NaN]. *)
Definition numLt (p q : option Z) : bool :=
  match p, q with
  | Some a, Some b => a <? b
  | _, _ => false
  end.

Section SortKeys.

Context {engine : Engine}.

(** The value a record is sorted by. *)
Definition keyOf (sortColumn : string) (r : User) : JsValue :=
  match sortValue sortColumn (JObj r) with
  | Ok v => v
  | Throw _ => JUndefined
  end.

Definition compareZ (StringToNumber : string → option Z)
    (sortColumn : string) (sortDirection : SortDirection) (a b : User)
  : Z :=
  if lessThan StringToNumber (keyOf sortColumn a) (keyOf sortColumn b) then
    match sortDirection with ascending => -1 | descending => 1 end
  else if lessThan StringToNumber (keyOf sortColumn b) (keyOf sortColumn a)
  then match sortDirection with ascending => 1 | descending => -1 end
  else 0.

(** Two records tie: neither sort value is less than the other. *)
Definition tied (StringToNumber : string → option Z) (sortColumn : string)
    (a b : User) : Prop :=
  lessThan StringToNumber (keyOf sortColumn a) (keyOf sortColumn b) = false ∧
  lessThan StringToNumber (keyOf sortColumn b) (keyOf sortColumn a) = false.

#[global] Instance tied_decision StringToNumber sortColumn a b :
  Decision (tied StringToNumber sortColumn a b).
Proof. unfold tied. apply _. Defined.

(** [a] may stand before [b]: under [ascending] the value of [b] is not
    less than that of [a], under [descending] the other way round. *)
Definition inOrder (StringToNumber : string → option Z) (sortColumn : string)
    (sortDirection : SortDirection) (a b : User) : Prop :=
  match sortDirection with
  | ascending =>
      lessThan StringToNumber (keyOf sortColumn b) (keyOf sortColumn a) = false
  | descending =>
      lessThan StringToNumber (keyOf sortColumn a) (keyOf sortColumn b) = false
  end.

(** The sort value of [r] is a string. *)
Definition stringKey (sortColumn : string) (r : User) : Prop :=
  ∃ s, keyOf sortColumn r = JStr s.

End SortKeys.

(** A consistent comparator for the elements of [xs], as ECMAScript
    defines it for [Array.prototype.sort]: being equal, being less and
    being greater are transitive. *)
Definition consistent_comparator {A : Type}
    (comparefn : A → A → Completion Z) (xs : list A) : Prop :=
  ∀ a b c, a ∈ xs → b ∈ xs → c ∈ xs →
    ∀ ab bc ac,
      comparefn a b = Ok ab → comparefn b c = Ok bc → comparefn a c = Ok ac →
      (ab = 0 → bc = 0 → ac = 0) ∧
      (ab < 0 → bc < 0 → ac < 0) ∧
      (0 < ab → 0 < bc → 0 < ac).

(** A reading of [StringToNumber] for the examples, none of which compares
    a string with a number. *)
Definition noNumber (s : string) : option Z := None.

(** A user record with the fields the listing shows. *)
Definition userRecord (id : Z) (name email city : string) : User :=
  {[ "id" := JNum id; "name" := JStr name; "email" := JStr email;
     "address" := JObj {[ "city" := JStr city ]} ]}.

(** ** An engine for the examples

    The general statements hold of every engine.  The examples are
    evaluated in the one below, which gives a record, a string, a number, a
    boolean and a built-in object the members of their prototype chains
    under the names that ECMAScript lists, a function its [name] and a
    constructor its [prototype]; what a built-in object has besides (the
    static methods of a constructor, the [length] of a function) is left
    out, and no example reads it. *)

Definition StringPrototype : list string :=
  [ "constructor"; "at"; "charAt"; "charCodeAt"; "codePointAt"; "concat";
    "endsWith"; "includes"; "indexOf"; "lastIndexOf"; "localeCompare";
    "match"; "matchAll"; "normalize"; "padEnd"; "padStart"; "repeat";
    "replace"; "replaceAll"; "search"; "slice"; "split"; "startsWith";
    "substring"; "toLocaleLowerCase"; "toLocaleUpperCase"; "toLowerCase";
    "toString"; "toUpperCase"; "trim"; "trimEnd"; "trimStart"; "valueOf";
    "substr"; "anchor"; "big"; "blink"; "bold"; "fixed"; "fontcolor";
    "fontsize"; "italics"; "link"; "small"; "strike"; "sub"; "sup";
    "trimLeft"; "trimRight" ].

Definition NumberPrototype : list string :=
  [ "constructor"; "toExponential"; "toFixed"; "toLocaleString";
    "toPrecision"; "toString"; "valueOf" ].

Definition BooleanPrototype : list string :=
  [ "constructor"; "toString"; "valueOf" ].

Definition FunctionPrototype : list string :=
  [ "constructor"; "apply"; "bind"; "call"; "toString" ].

(** The prototype chain of a value: each prototype with the name of its
    constructor and its property names. *)
Definition prototypeChain (v : JsValue) : list (string * list string) :=
  let object := ("Object"%string, ObjectPrototype) in
  match v with
  | JStr _ => [("String"%string, StringPrototype); object]
  | JNum _ => [("Number"%string, NumberPrototype); object]
  | JBool _ => [("Boolean"%string, BooleanPrototype); object]
  | JBuiltin true _ => [("Function"%string, FunctionPrototype); object]
  | JBuiltin false id =>
      if String.eqb id "String.prototype"
      then [("String"%string, StringPrototype); object]
      else if String.eqb id "Number.prototype"
      then [("Number"%string, NumberPrototype); object]
      else if String.eqb id "Boolean.prototype"
      then [("Boolean"%string, BooleanPrototype); object]
      else [object]
  | _ => [object]
  end.

(** The prototype object of a constructor; [Function.prototype] is itself
    a function, without a name. *)
Definition prototypeObject (constructor : string) : JsValue :=
  if String.eqb constructor "Function" then JBuiltin true ""
  else JBuiltin false (constructor ++ ".prototype").

(** [Object.getPrototypeOf(v)], which [v.__proto__] reads. *)
Definition getPrototypeOf (v : JsValue) : JsValue :=
  match v with
  | JStr _ => prototypeObject "String"
  | JNum _ => prototypeObject "Number"
  | JBool _ => prototypeObject "Boolean"
  | JBuiltin true id =>
      if String.eqb id "" then prototypeObject "Object"
      else prototypeObject "Function"
  | JBuiltin false id =>
      if String.eqb id "Object.prototype" then JNull
      else prototypeObject "Object"
  | _ => prototypeObject "Object"
  end.

(** The first prototype of the chain that has the name decides: the
    [constructor] is the constructor function, [__proto__] reads the
    prototype, and any other name is a method of that name. *)
Fixpoint chainMember (v : JsValue) (chain : list (string * list string))
    (k : string) : JsValue :=
  match chain with
  | [] => JUndefined
  | (constructor, names) :: chain' =>
      if bool_decide (k ∈ names) then
        if String.eqb k "constructor" then JBuiltin true constructor
        else if String.eqb k "__proto__" then getPrototypeOf v
        else JBuiltin true k
      else chainMember v chain' k
  end.

Definition exampleEngine : Engine :=
  {| builtinMember v k :=
       match v with
       | JBuiltin true id =>
           if String.eqb k "name" then JStr id
           else if String.eqb k "prototype"
                   && bool_decide (id ∈ ["Object"; "String"; "Number";
                                         "Boolean"; "Function"]%string)
           then prototypeObject id
           else chainMember v (prototypeChain v) k
       | _ => chainMember v (prototypeChain v) k
       end;
     builtinToPrimitive callable id :=
       if callable
       then JStr ("function " ++ id ++ "() { [native code] }")
       else if String.eqb id "String.prototype" then JStr ""
       else if String.eqb id "Number.prototype" then JNum 0
       else if String.eqb id "Boolean.prototype" then JBool false
       else JStr "[object Object]" |}.

#[global] Existing Instance exampleEngine.

(** * The rest of the two screens *)

(** ** The language of a regular expression *)

Inductive matches : regex → string → Prop :=
  | matches_Eps : matches Eps ""
  | matches_Class p c : p c = true → matches (Class p) (String c "")
  | matches_Cat r s u v :
      matches r u → matches s v → matches (Cat r s) (u ++ v)
  | matches_Alt_l r s u : matches r u → matches (Alt r s) u
  | matches_Alt_r r s u : matches s u → matches (Alt r s) u
  | matches_Star_nil r : matches (Star r) ""
  | matches_Star_cons r u v :
      matches r u → matches (Star r) v → matches (Star r) (u ++ v).

(** Every code unit of [s] satisfies [p]. *)
Fixpoint all_units (p : ascii → bool) (s : string) : bool :=
  match s with
  | EmptyString => true
  | String c s' => p c && all_units p s'
  end.

(** A non-empty run of code units that are neither white space nor ['@']:
    a word of [[^\s@]+]. *)
Definition solid (s : string) : Prop :=
  s ≠ ""%string ∧ all_units not_space_at s = true.

(** The number of occurrences of [c] in [s]. *)
Fixpoint count_unit (c : ascii) (s : string) : nat :=
  match s with
  | EmptyString => 0%nat
  | String c' s' => ((if Ascii.eqb c' c then 1 else 0) + count_unit c s')%nat
  end.

(** [segs.join(sep)] for a separator of one code unit. *)
Fixpoint Array_join (sep : ascii) (segs : list string) : string :=
  match segs with
  | [] => EmptyString
  | [seg] => seg
  | seg :: segs' => (seg ++ String sep (Array_join sep segs'))%string
  end.

(** ** Fetching the users (home.js, lines 26-28 and 43-63) *)

(** How a promise settles; a rejection carries the [message] of its
    error. *)
Inductive Settled (A : Type) : Type :=
  | Fulfilled (a : A)
  | Rejected (message : string).

Arguments Fulfilled {A} a.
Arguments Rejected {A} message.

(** What the effect reads of the response: the [ok] flag and how
    [response.json()] settles. *)
Record Response : Type := mkResponse {
  ok : bool;
  json : Settled (list User)
}.

(** The state of the listing screen: the view state of the pipeline, the
    loading flag and the error message ([None] for [null]). *)
Record Screen : Type := mkScreen {
  app : AppState;
  loading : bool;
  error : option string
}.

Definition setUsers (data : list User) (st : AppState) : AppState :=
  {| users := data; searchQuery := searchQuery st;
     sortColumn := sortColumn st; sortDirection := sortDirection st;
     page := page st; itemsPerPage := itemsPerPage st |}.

Definition setLoading (b : bool) (s : Screen) : Screen :=
  {| app := app s; loading := b; error := error s |}.

Definition setError (e : option string) (s : Screen) : Screen :=
  {| app := app s; loading := loading s; error := e |}.

Definition withApp (f : AppState → AppState) (s : Screen) : Screen :=
  {| app := f (app s); loading := loading s; error := error s |}.

(** The state at mount, lines 26-38. *)
Definition mountedScreen : Screen :=
  {| app := initialState; loading := true; error := None |}.

(** The promise chain of lines 45-51: a response that is not [ok] throws,
    otherwise the body is parsed. *)
Definition fetchedData (response : Settled Response) : Settled (list User) :=
  match response with
  | Rejected message => Rejected message
  | Fulfilled r =>
      if negb (ok r) then Rejected "Network response was not ok"
      else json r
  end.

(** The effect of lines 43-63: [setLoading(true)] at once, then the
    handlers of [then], [catch] and [finally] once [fetch] has settled. *)
Definition fetchStarted (s : Screen) : Screen := setLoading true s.

Definition fetchSettled (response : Settled Response) (s : Screen) : Screen :=
  let s' :=
    match fetchedData response with
    | Fulfilled data => setError None (withApp (setUsers data) s)
    | Rejected message => withApp (setUsers []) (setError (Some message) s)
    end in
  setLoading false s'.

Definition fetchEffect (response : Settled Response) (s : Screen) : Screen :=
  fetchSettled response (fetchStarted s).

(** ** Rendering the listing (home.js, lines 125-190) *)

(** [if (error)]: [null] and the empty message are falsy. *)
Definition errorShown (e : option string) : bool :=
  match e with
  | Some message => truthy (JStr message)
  | None => false
  end.

(** The [sortDirection] prop of a column title, lines 156-162. *)
Definition titleSortDirection (column : string) (st : AppState)
  : option SortDirection :=
  if String.eqb (sortColumn st) column then Some (sortDirection st) else None.

(** [xs.map(f)] with a callback that may throw. *)
Fixpoint Array_map {A B : Type} (f : A → Completion B) (xs : list A)
  : Completion (list B) :=
  match xs with
  | [] => Ok []
  | x :: xs' =>
      let* y := f x in
      let* ys := Array_map f xs' in
      Ok (y :: ys)
  end.

(** A table row, lines 168-172: its key and the values of its cells, as
    the expressions of the row evaluate; how a value is drawn is left to the
    table component. *)
Record RowView : Type := mkRowView {
  rowKey : JsValue;
  nameCell : JsValue;
  emailCell : JsValue;
  cityCell : JsValue
}.

Section Row.

Context {engine : Engine}.

Definition renderRow (user : User) : Completion RowView :=
  let* key := getProp (JObj user) "id" in
  let* name := getProp (JObj user) "name" in
  let* email := getProp (JObj user) "email" in
  let* address := getProp (JObj user) "address" in
  let* city := getProp address "city" in
  Ok {| rowKey := key; nameCell := name; emailCell := email;
        cityCell := city |}.

End Row.

(** The value of the [address] field, [undefined] when there is none. *)
Definition addressOf (u : User) : JsValue :=
  default JUndefined (u !! "address").

(** The [address] of [u] can be read into: it is neither absent nor
    [null]. *)
Definition hasAddress (u : User) : Prop :=
  addressOf u ≠ JUndefined ∧ addressOf u ≠ JNull.

(** [String(n)] for an integer. *)
Definition Number_toString (n : Z) : string := pretty n.

(** The two ends of the range in the label of the pagination control,
    line 179. *)
Definition labelFrom (page itemsPerPage : Z) : Z := page * itemsPerPage + 1.

Definition labelTo {A : Type} (processed : list A) (page itemsPerPage : Z)
  : Z :=
  Z.min ((page + 1) * itemsPerPage) (Z.of_nat (length processed)).

Definition paginationLabel {A : Type} (processed : list A)
    (page itemsPerPage : Z) : string :=
  (Number_toString (labelFrom page itemsPerPage) ++ "-"
   ++ Number_toString (labelTo processed page itemsPerPage) ++ " of "
   ++ Number_toString (Z.of_nat (length processed)))%string.

(** The props of [DataTable.Pagination] that depend on the state. *)
Record PaginationView : Type := mkPaginationView {
  shownPage : Z;
  shownNumberOfPages : Z;
  shownLabel : string;
  shownItemsPerPage : Z
}.

Inductive Body : Type :=
  | Spinner
  | Table (nameTitle emailTitle cityTitle : option SortDirection)
          (rows : list RowView) (pagination : PaginationView).

Inductive Rendered : Type :=
  | ErrorText (message : string)
  | Dashboard (searchValue : string) (body : Body).

Section Render.

Context {engine : Engine}.

Variable StringToNumber : string → option Z.

(** One render of [App]: the memoised values are computed first, then the
    error text, the spinner or the table is returned. *)
Definition render (s : Screen) : Completion Rendered :=
  let st := app s in
  let* processed :=
    processedUsers StringToNumber (users st) (searchQuery st)
                   (sortColumn st) (sortDirection st) in
  let paginated := paginatedUsers processed (page st) (itemsPerPage st) in
  if errorShown (error s) then Ok (ErrorText (default ""%string (error s)))
  else
    let* body :=
      if loading s then Ok Spinner
      else
        let* rows := Array_map renderRow paginated in
        Ok (Table (titleSortDirection "name" st)
                  (titleSortDirection "email" st)
                  (titleSortDirection "address.city" st)
                  rows
                  {| shownPage := page st;
                     shownNumberOfPages :=
                       numberOfPages processed (itemsPerPage st);
                     shownLabel :=
                       paginationLabel processed (page st) (itemsPerPage st);
                     shownItemsPerPage := itemsPerPage st |}) in
    Ok (Dashboard (searchQuery st) body).

End Render.
(** * Properties *)

Section Properties.

Context {engine : Engine}.

(** ** Completions *)

Lemma bind_returns {A B : Type} (c : Completion A) (k : A → Completion B) :
  returns c → (∀ a, returns (k a)) → returns (bind c k).
Proof.
  intros [a ->] Hk. simpl. apply Hk.
Qed.

Lemma bind_Ok_inv {A B : Type} (c : Completion A) (k : A → Completion B) b :
  bind c k = Ok b → ∃ a, c = Ok a ∧ k a = Ok b.
Proof.
  destruct c as [a|e]; simpl; [eauto | discriminate].
Qed.

Lemma reduce_app {A B : Type} (f : B → A → Completion B) xs ys acc :
  reduce f (xs ++ ys) acc = bind (reduce f xs acc) (reduce f ys).
Proof.
  revert acc. induction xs as [|x xs IH]; intros acc; simpl; [done|].
  destruct (f acc x) as [acc'|e]; simpl; [apply IH | done].
Qed.

(** ** Splitting a path *)

Lemma String_split_nonempty sep s : String_split sep s ≠ [].
Proof.
  destruct s as [|c s]; simpl; [done|].
  destruct (Ascii.eqb c sep); [done|].
  destruct (String_split sep s); done.
Qed.

Lemma String_split_app sep p q :
  String_split sep (p ++ String sep q)%string
  = String_split sep p ++ String_split sep q.
Proof.
  induction p as [|c p IH]; simpl.
  - by rewrite Ascii.eqb_refl.
  - destruct (Ascii.eqb c sep); [by rewrite IH|].
    rewrite IH. destruct (String_split sep p) as [|seg segs] eqn:E; [|done].
    by apply String_split_nonempty in E.
Qed.

Lemma String_split_single sep s :
  mentions sep s = false → String_split sep s = [s].
Proof.
  induction s as [|c s IH]; simpl; [done|].
  destruct (Ascii.eqb c sep); simpl; [done|].
  intros H. by rewrite (IH H).
Qed.

(** ** The nested field accessor *)

Lemma getNestedValue_unfold obj path :
  getNestedValue obj path = reduce step (String_split "." path) obj.
Proof. reflexivity. Qed.

Lemma getProp_member v k :
  truthy v = true →
  getProp v k = Ok (default (inheritedProperty v k) (ownProperty v k)).
Proof. by destruct v. Qed.

Lemma step_returns acc part : returns (step acc part).
Proof.
  unfold step, returns. destruct (truthy acc) eqn:Ht; [|eauto].
  rewrite getProp_member by done. eauto.
Qed.

Lemma reduce_step_returns parts acc : returns (reduce step parts acc).
Proof.
  revert acc. induction parts as [|part parts IH]; intros acc; simpl.
  - by exists acc.
  - apply bind_returns; [apply step_returns | apply IH].
Qed.


Lemma getNestedValue_returns obj path : returns (getNestedValue obj path).
Proof. apply reduce_step_returns. Qed.

(** Walking [p.q] is walking [p] and then [q] from where [p] arrived. *)
Lemma getNestedValue_dot obj p q :
  getNestedValue obj (p ++ String "." q)%string
  = bind (getNestedValue obj p) (fun v => getNestedValue v q).
Proof.
  rewrite !getNestedValue_unfold, String_split_app. apply reduce_app.
Qed.

Lemma getNestedValue_segment obj seg :
  mentions "." seg = false →
  getNestedValue obj seg = if truthy obj then getProp obj seg else Ok obj.
Proof.
  intros H. rewrite getNestedValue_unfold, (String_split_single _ _ H).
  simpl. unfold step. by destruct (truthy obj), (getProp obj seg).
Qed.













(** ** Substrings *)

Lemma startsWith_spec s sub :
  startsWith s sub = true ↔ ∃ post, s = (sub ++ post)%string.
Proof.
  revert s. induction sub as [|a sub IH]; intros s.
  - split; [intros _; by exists s | by destruct s].
  - destruct s as [|b s]; simpl.
    + split; [done | intros [post H]; discriminate].
    + rewrite andb_true_iff, Ascii.eqb_eq, IH. split.
      * intros [-> [post ->]]. by exists post.
      * intros [post H]. injection H as -> ->. eauto.
Qed.

Lemma includes_nil sub : includes "" sub = startsWith "" sub.
Proof. simpl. by rewrite orb_false_r. Qed.

Lemma includes_cons c s sub :
  includes (String c s) sub = startsWith (String c s) sub || includes s sub.
Proof. reflexivity. Qed.

Lemma includes_spec s sub : includes s sub = true ↔ substring_of sub s.
Proof.
  unfold substring_of. induction s as [|c s IH].
  - rewrite includes_nil, startsWith_spec. split.
    + intros [post H]. by exists ""%string, post.
    + intros [pre [post H]]. destruct pre; simpl in H; [by exists post|done].
  - rewrite includes_cons, orb_true_iff, startsWith_spec, IH. split.
    + intros [[post H] | [pre [post H]]].
      * by exists ""%string, post.
      * exists (String c pre), post. simpl. by rewrite H.
    + intros [pre [post H]]. destruct pre as [|c' pre]; simpl in H.
      * left. by exists post.
      * right. injection H as -> ->. by exists pre, post.
Qed.

Lemma nameMatches_spec term u :
  nameMatches term u = true ↔ nameContains term u.
Proof.
  unfold nameContains, hasName, nameMatches. split.
  - destruct (u !! "name") as [[| | | |n| |]|] eqn:E; try discriminate.
    intros H. exists n. split; [done | by apply includes_spec].
  - intros (n & Hn & Hsub). rewrite Hn. by apply includes_spec.
Qed.

(** ** The filter stage *)

Lemma Array_filter_pure {A : Type} (p : A → Completion bool) (f : A → bool)
    (xs : list A) :
  (∀ x, x ∈ xs → p x = Ok (f x)) →
  Array_filter p xs = Ok (filter (fun x => f x = true) xs).
Proof.
  induction xs as [|x xs IH]; intros Hp; simpl; [done|].
  rewrite Hp by set_solver. simpl.
  rewrite IH by (intros y Hy; apply Hp; set_solver). simpl.
  destruct (f x) eqn:E.
  - by rewrite filter_cons_True.
  - by rewrite filter_cons_False by (rewrite E; done).
Qed.

Lemma filter_callback_named term u n :
  hasName u n →
  (let* name := getProp (JObj u) "name" in
   let* lowered := call_toLowerCase name in
   Ok (includes lowered (toLowerCase term)))
  = Ok (nameMatches term u).
Proof.
  unfold hasName, nameMatches. intros Hn. simpl. by rewrite Hn.
Qed.

Lemma filterStage_empty_term users : filterStage users "" = Ok users.
Proof. reflexivity. Qed.

Lemma truthy_JStr s : truthy (JStr s) = true ↔ s ≠ ""%string.
Proof.
  simpl. rewrite negb_true_iff. apply String.eqb_neq.
Qed.

Lemma filterStage_named users term :
  (∀ u, u ∈ users → ∃ n, hasName u n) →
  filterStage users term
  = Ok (if truthy (JStr term)
        then filter (fun u => nameMatches term u = true) users
        else users).
Proof.
  intros Hdom. unfold filterStage. destruct (truthy (JStr term)); [|done].
  apply Array_filter_pure. intros u Hu.
  destruct (Hdom u Hu) as [n Hn]. by apply filter_callback_named with n.
Qed.

(** C1: with an empty search term the filter stage returns the collection
    unchanged; with a term [T] it returns, on records that carry a string
    [name], exactly the records whose case-folded name contains the
    case-folded [T] as a substring, in their order in the collection. *)
Theorem C1_filter_stage_postcondition :
  (∀ users, filterStage users "" = Ok users) ∧
  (∀ users term,
     term ≠ ""%string →
     (∀ u, u ∈ users → ∃ n, hasName u n) →
     ∃ out,
       filterStage users term = Ok out ∧
       out = filter (fun u => nameMatches term u = true) users ∧
       out `sublist_of` users ∧
       (∀ u, u ∈ out ↔ u ∈ users ∧ nameContains term u)).
Proof.
  split; [exact filterStage_empty_term|].
  intros users term Hterm Hdom.
  exists (filter (fun u => nameMatches term u = true) users).
  split; [|split; [done|split]].
  - rewrite filterStage_named by done.
    apply truthy_JStr in Hterm. by rewrite Hterm.
  - apply sublist_filter.
  - intros u. rewrite list_elem_of_filter, nameMatches_spec. tauto.
Qed.

(** ** Pagination *)

Lemma relative_index_nonneg len k :
  0 ≤ k → relative_index len k = Z.min k len.
Proof.
  intros Hk. unfold relative_index.
  destruct (Z.ltb_spec k 0); [lia | done].
Qed.

Lemma Array_slice_nonneg {A : Type} (xs : list A) (start count : Z) :
  0 ≤ start → 0 ≤ count →
  Array_slice xs start (start + count)
  = take (Z.to_nat count) (drop (Z.to_nat start) xs).
Proof.
  intros Hs Hc. unfold Array_slice.
  rewrite !relative_index_nonneg by lia.
  destruct (Z.le_gt_cases (Z.of_nat (length xs)) start) as [Hge|Hlt].
  - rewrite Z.min_r by lia.
    rewrite !drop_ge by lia. by rewrite !take_nil.
  - rewrite (Z.min_l start) by lia.
    destruct (Z.le_gt_cases (start + count) (Z.of_nat (length xs))).
    + rewrite Z.min_l by lia. do 2 f_equal. lia.
    + rewrite Z.min_r by lia.
      rewrite !take_ge; [done | |]; rewrite length_drop; lia.
Qed.

Lemma paginatedUsers_take_drop {A : Type} (processed : list A) page size :
  0 ≤ page → 0 ≤ size →
  paginatedUsers processed page size
  = take (Z.to_nat size) (drop (Z.to_nat (page * size)) processed).
Proof.
  intros Hp Hs. unfold paginatedUsers. apply Array_slice_nonneg; lia.
Qed.


Lemma pages_concat {A : Type} (processed : list A) size (n : nat) :
  0 ≤ size →
  concat ((fun p => paginatedUsers processed p size) <$> seqZ 0 (Z.of_nat n))
  = take (n * Z.to_nat size) processed.
Proof.
  intros Hs. induction n as [|n IH].
  - done.
  - rewrite seqZ_S, fmap_app, concat_app, IH. simpl.
    rewrite app_nil_r, paginatedUsers_take_drop by lia.
    rewrite Z.add_0_l.
    replace (Z.to_nat (Z.of_nat n * size)) with (n * Z.to_nat size)%nat
      by lia.
    rewrite take_take_drop. f_equal. lia.
Qed.

Lemma numberOfPages_div {A : Type} (processed : list A) size :
  numberOfPages processed size = - (- Z.of_nat (length processed) / size).
Proof.
  unfold numberOfPages, Math_ceil, Qceiling. f_equal.
  rewrite Zdiv_Qdiv. apply Qfloor_comp.
  rewrite inject_Z_opp. unfold Qdiv. ring.
Qed.

Lemma numberOfPages_ceiling {A : Type} (processed : list A) size :
  0 < size →
  let n := numberOfPages processed size in
  (n - 1) * size < Z.of_nat (length processed) ≤ n * size.
Proof.
  intros Hs n. subst n. rewrite numberOfPages_div.
  set (L := Z.of_nat (length processed)).
  pose proof (Z.div_mod (- L) size ltac:(lia)) as Hdm.
  pose proof (Z.mod_pos_bound (- L) size Hs) as Hb.
  nia.
Qed.

(** C3: at a positive page size the pages [0 .. numberOfPages - 1],
    concatenated, are the whole sequence; [numberOfPages] is the ceiling of
    the length over the page size; and twelve rows at five per page make
    three pages, the first of five rows and the last of two. *)
Theorem C3_pagination_covers :
  (∀ (A : Type) (processed : list A) (size : Z),
     0 < size →
     let n := numberOfPages processed size in
     concat ((fun p => paginatedUsers processed p size) <$> seqZ 0 n)
     = processed ∧
     (n - 1) * size < Z.of_nat (length processed) ≤ n * size) ∧
  (∀ (A : Type) (processed : list A),
     length processed = 12%nat →
     numberOfPages processed 5 = 3 ∧
     length (paginatedUsers processed 0 5) = 5%nat ∧
     length (paginatedUsers processed 2 5) = 2%nat).
Proof.
  split.
  - intros A processed size Hs n.
    pose proof (numberOfPages_ceiling processed size Hs) as Hn.
    cbv zeta in Hn. fold n in Hn. clearbody n. split; [|exact Hn].
    pose proof (Nat2Z.is_nonneg (length processed)) as HL.
    assert (0 ≤ n) as Hn0 by nia.
    rewrite <- (Z2Nat.id n Hn0), pages_concat by lia.
    apply take_ge. nia.
  - intros A processed Hlen.
    rewrite numberOfPages_div, !paginatedUsers_take_drop by lia.
    rewrite !length_take, !length_drop, Hlen. done.
Qed.

(** ** The handlers of the listing *)

Lemma handleSearch_resets_page query st :
  page (handleSearch query st) = 0 ∧
  searchQuery (handleSearch query st) = query.
Proof. done. Qed.

Lemma onItemsPerPageChange_keeps_page n st :
  page (onItemsPerPageChange n st) = page st ∧
  itemsPerPage (onItemsPerPageChange n st) = n.
Proof. done. Qed.

(** C6, where the code departs from it: with twelve users shown five per
    page and the third page open, choosing fifteen rows per page leaves the
    page index at 2 although a single page remains; the index is out of
    range and no row is shown.  The search handler does reset the index. *)
Theorem C6_page_size_change_keeps_page :
  ∀ StringToNumber,
    let st :=
      {| users := twelveUsers; searchQuery := ""; sortColumn := "name";
         sortDirection := ascending; page := 2; itemsPerPage := 5 |} in
    let st' := onItemsPerPageChange 15 st in
    ∃ rows,
      processedUsers StringToNumber (users st') (searchQuery st')
                     (sortColumn st') (sortDirection st') = Ok rows ∧
      pageInRange rows (page st) (itemsPerPage st) ∧
      page st' = 2 ∧
      numberOfPages rows (itemsPerPage st') = 1 ∧
      ¬ pageInRange rows (page st') (itemsPerPage st') ∧
      paginatedUsers rows (page st') (itemsPerPage st') = [].
Proof.
  intros S st st'. exists twelveUsers.
  assert (numberOfPages twelveUsers 5 = 3) as H5
    by (rewrite numberOfPages_div; reflexivity).
  assert (numberOfPages twelveUsers 15 = 1) as H15
    by (rewrite numberOfPages_div; reflexivity).
  split; [reflexivity|].
  split; [unfold pageInRange; simpl; rewrite H5; lia|].
  split; [reflexivity|].
  split; [exact H15|].
  split; [unfold pageInRange; simpl; rewrite H15; lia|].
  reflexivity.
Qed.

(** ** The login gate *)

Lemma literal_email_valid : validateEmail "test@gmail.com" = true.
Proof. reflexivity. Qed.

Lemma handleLogin_accepts w :
  handleLogin "test@gmail.com" "pass123" w
  = navigation_replace "Home"
      (AsyncStorage_setItem "user" (JSON_stringify_email "test@gmail.com") w).
Proof. reflexivity. Qed.

Lemma handleLogin_rejects email pass w :
  ¬ (email = "test@gmail.com"%string ∧ pass = "pass123"%string) →
  handleLogin email pass w
  = if negb (truthy (JStr email)) || negb (truthy (JStr pass)) then
      Alert_alert "Validation Error" "Please enter both email and password" w
    else if negb (validateEmail email) then
      Alert_alert "Invalid Email" "Please enter a valid email address" w
    else Alert_alert "Login Failed" "Invalid email or password" w.
Proof.
  intros Hne. unfold handleLogin.
  destruct (negb (truthy (JStr email)) || negb (truthy (JStr pass))); [done|].
  destruct (negb (validateEmail email)); [done|].
  destruct (String.eqb_spec email "test@gmail.com"); [|done].
  destruct (String.eqb_spec pass "pass123"); [|done].
  by destruct Hne.
Qed.

(** C9: the literal pair creates the session (the key ["user"] is written)
    and navigates to the listing, with no alert; every other input leaves
    the store and the route as they were and raises exactly one alert: the
    validation alert when a field is empty, the invalid-email alert when
    the email fails the pattern, the login-failed alert otherwise. *)
Theorem C9_credential_gate :
  ∀ (email pass : string) (w : LoginWorld),
    let w' := handleLogin email pass w in
    (email = "test@gmail.com"%string ∧ pass = "pass123"%string →
     storage w' = <["user" := JSON_stringify_email "test@gmail.com"]> (storage w) ∧
     storage w' !! "user" = Some (JSON_stringify_email "test@gmail.com") ∧
     route w' = "Home"%string ∧
     alerts w' = alerts w) ∧
    (¬ (email = "test@gmail.com"%string ∧ pass = "pass123"%string) →
     (email = ""%string ∨ pass = ""%string →
      rejectedWith "Validation Error" "Please enter both email and password"
                   w w') ∧
     (email ≠ ""%string → pass ≠ ""%string → validateEmail email = false →
      rejectedWith "Invalid Email" "Please enter a valid email address"
                   w w') ∧
     (email ≠ ""%string → pass ≠ ""%string → validateEmail email = true →
      rejectedWith "Login Failed" "Invalid email or password" w w') ∧
     storage w' = storage w ∧ route w' = route w ∧
     ∃ alert, alerts w' = alerts w ++ [alert]).
Proof.
  intros email pass w w'. split.
  - intros [-> ->]. subst w'. rewrite handleLogin_accepts. simpl.
    split; [done|]. split; [apply lookup_insert_eq | done].
  - intros Hne. subst w'. rewrite (handleLogin_rejects _ _ _ Hne).
    split; [|split; [|split]].
    + intros Hempty.
      assert (negb (truthy (JStr email)) || negb (truthy (JStr pass)) = true)
        as ->; [|done].
      destruct Hempty as [-> | ->]; simpl; [done | apply orb_true_r].
    + intros He Hp Hv.
      apply truthy_JStr in He, Hp. rewrite He, Hp, Hv. done.
    + intros He Hp Hv.
      apply truthy_JStr in He, Hp. rewrite He, Hp, Hv. done.
    + destruct (negb (truthy (JStr email)) || negb (truthy (JStr pass)));
        [|destruct (negb (validateEmail email))];
        simpl; eauto.
Qed.

(** ** Stable sorting with a consistent comparison *)

Section StableSort.
Context {A : Type} (f : A → A → Z) (D : A → Prop).

Hypothesis f_refl : ∀ a, D a → f a a = 0.
Hypothesis f_antisym : ∀ a b, D a → D b → f b a = - f a b.
Hypothesis f_trans_eq :
  ∀ a b c, D a → D b → D c → f a b = 0 → f b c = 0 → f a c = 0.
Hypothesis f_trans_lt :
  ∀ a b c, D a → D b → D c → f a b < 0 → f b c < 0 → f a c < 0.

#[local] Abbreviation le := (le_by f).
#[local] Abbreviation tie := (tie_by f).

Lemma le_by_trans a b c : D a → D b → D c → le a b → le b c → le a c.
Proof using f_antisym f_trans_eq f_trans_lt.
  unfold le_by. intros Da Db Dc Hab Hbc.
  pose proof (f_antisym a b Da Db) as Hba.
  pose proof (f_antisym b c Db Dc) as Hcb.
  pose proof (f_antisym a c Da Dc) as Hca.
  destruct (Z.eq_dec (f a b) 0) as [Eab|Nab],
           (Z.eq_dec (f b c) 0) as [Ebc|Nbc].
  - rewrite (f_trans_eq a b c); done.
  - destruct (Z.le_gt_cases (f a c) 0) as [?|Hgt]; [done|].
    pose proof (f_trans_lt b c a Db Dc Da). lia.
  - destruct (Z.le_gt_cases (f a c) 0) as [?|Hgt]; [done|].
    pose proof (f_trans_lt c a b Dc Da Db). lia.
  - pose proof (f_trans_lt a b c Da Db Dc). lia.
Qed.

Lemma insert_by_perm x xs : insert_by f x xs ≡ₚ x :: xs.
Proof.
  induction xs as [|y xs IH]; simpl; [done|].
  destruct (f x y <=? 0); [done|].
  rewrite IH. apply Permutation_swap.
Qed.

Lemma sort_by_perm xs : sort_by f xs ≡ₚ xs.
Proof.
  induction xs as [|x xs IH]; simpl; [done|].
  by rewrite insert_by_perm, IH.
Qed.

Lemma sort_by_domain xs : Forall D xs → Forall D (sort_by f xs).
Proof. by rewrite sort_by_perm. Qed.

Lemma insert_by_sorted x xs :
  D x → Forall D xs →
  StronglySorted le xs → StronglySorted le (insert_by f x xs).
Proof using f_antisym f_trans_eq f_trans_lt.
  intros Dx. induction xs as [|y xs IH]; intros Dxs Hs; simpl.
  - by repeat constructor.
  - apply Forall_cons in Dxs as [Dy Dxs].
    apply StronglySorted_inv in Hs as [Hs Hy].
    destruct (Z.leb_spec (f x y) 0) as [Hle|Hgt].
    + constructor; [by constructor|].
      constructor; [done|].
      rewrite Forall_forall in *. intros z Hz.
      apply (le_by_trans x y z); auto.
    + constructor; [by apply IH|].
      rewrite insert_by_perm. constructor; [|done].
      unfold le_by. rewrite (f_antisym x y); [lia|done..].
Qed.

Lemma sort_by_sorted xs :
  Forall D xs → StronglySorted le (sort_by f xs).
Proof using f_antisym f_trans_eq f_trans_lt.
  induction xs as [|x xs IH]; intros Dxs; simpl; [constructor|].
  apply Forall_cons in Dxs as [Dx Dxs].
  apply insert_by_sorted; [done| by apply sort_by_domain | by apply IH].
Qed.

(** An element is never moved across one it ties with. *)
Lemma insert_by_stable z x xs :
  D z → D x → Forall D xs →
  filter (tie z) (insert_by f x xs) = filter (tie z) (x :: xs).
Proof using f_antisym f_trans_eq.
  intros Dz Dx. induction xs as [|y xs IH]; intros Dxs; simpl; [done|].
  apply Forall_cons in Dxs as [Dy Dxs].
  destruct (Z.leb_spec (f x y) 0) as [Hle|Hgt]; [done|].
  rewrite (filter_cons _ y), IH, !(filter_cons _ x), (filter_cons _ y)
    by done.
  destruct (decide (tie z x)) as [Hzx|Hzx]; [|done].
  destruct (decide (tie z y)) as [Hzy|Hzy]; [|done].
  exfalso. unfold tie_by in *.
  assert (f x y = 0); [|lia].
  apply (f_trans_eq x z y); try done.
  rewrite (f_antisym z x); [lia|done..].
Qed.

Lemma sort_by_stable z xs :
  D z → Forall D xs →
  filter (tie z) (sort_by f xs) = filter (tie z) xs.
Proof using f_antisym f_trans_eq.
  intros Dz. induction xs as [|x xs IH]; intros Dxs; simpl; [done|].
  apply Forall_cons in Dxs as [Dx Dxs].
  rewrite insert_by_stable by (try done; by apply sort_by_domain).
  by rewrite !(filter_cons _ x), IH.
Qed.

(** Two sorted lists with the same ties in the same order are equal. *)
Lemma sorted_stable_unique xs ys :
  Forall D xs → Forall D ys →
  StronglySorted le xs → StronglySorted le ys →
  (∀ z, D z → filter (tie z) xs = filter (tie z) ys) →
  xs = ys.
Proof using f_refl f_antisym.
  revert ys. induction xs as [|x xs IH]; intros ys Dxs Dys Sxs Sys Hf.
  - destruct ys as [|y ys]; [done|].
    apply Forall_cons in Dys as [Dy Dys].
    specialize (Hf y Dy).
    rewrite filter_nil, filter_cons_True in Hf by (by apply f_refl).
    done.
  - apply Forall_cons in Dxs as [Dx Dxs].
    apply StronglySorted_inv in Sxs as [Sxs Hx].
    destruct ys as [|y ys].
    { specialize (Hf x Dx).
      rewrite filter_nil, filter_cons_True in Hf by (by apply f_refl).
      done. }
    apply Forall_cons in Dys as [Dy Dys].
    apply StronglySorted_inv in Sys as [Sys Hy].
    assert (x = y) as <-.
    { pose proof (Hf x Dx) as Hfx. pose proof (Hf y Dy) as Hfy.
      rewrite (filter_cons_True _ x xs) in Hfx by (by apply f_refl).
      rewrite (filter_cons_True _ y ys) in Hfy by (by apply f_refl).
      rewrite (filter_cons _ y) in Hfx. rewrite (filter_cons _ x) in Hfy.
      destruct (decide (tie x y)) as [Hxy|Hxy]; [congruence|].
      destruct (decide (tie y x)) as [Hyx|Hyx]; [congruence|].
      exfalso.
      assert (x ∈ filter (tie x) ys) as Hin by (rewrite <- Hfx; left).
      assert (y ∈ filter (tie y) xs) as Hin' by (rewrite Hfy; left).
      apply list_elem_of_filter in Hin as [_ Hin].
      apply list_elem_of_filter in Hin' as [_ Hin'].
      rewrite Forall_forall in Hx, Hy.
      specialize (Hx y Hin'). specialize (Hy x Hin).
      unfold le_by, tie_by in *. rewrite (f_antisym x y) in Hy by done. lia. }
    f_equal. apply IH; try done.
    intros z Dz. specialize (Hf z Dz).
    rewrite !(filter_cons _ x) in Hf.
    destruct (decide (tie z x)); congruence.
Qed.

(** For a consistent comparison the outcome of a stable sort is fixed:
    whatever is sorted, holds the same elements and keeps ties in input
    order is what [sort_by] returns. *)
Lemma stable_sort_unique xs out :
  Forall D xs →
  out ≡ₚ xs →
  StronglySorted le out →
  (∀ z, D z → filter (tie z) out = filter (tie z) xs) →
  out = sort_by f xs.
Proof using f_refl f_antisym f_trans_eq f_trans_lt.
  intros Dxs Hperm Hs Hf.
  apply sorted_stable_unique; try done.
  - by rewrite Hperm.
  - by apply sort_by_domain.
  - by apply sort_by_sorted.
  - intros z Dz. rewrite Hf, sort_by_stable; done.
Qed.

End StableSort.

(** ** Array.prototype.sort with a comparator that returns *)

Lemma sort_insert_pure {A : Type} (comparefn : A → A → Completion Z)
    (f : A → A → Z) x xs :
  (∀ a b, comparefn a b = Ok (f a b)) →
  sort_insert comparefn x xs = Ok (insert_by f x xs).
Proof.
  intros Hc. induction xs as [|y xs IH]; simpl; [done|].
  rewrite Hc. simpl. destruct (f x y <=? 0); [done|]. by rewrite IH.
Qed.

Lemma Array_sort_pure {A : Type} (comparefn : A → A → Completion Z)
    (f : A → A → Z) xs :
  (∀ a b, comparefn a b = Ok (f a b)) →
  Array_sort comparefn xs = Ok (sort_by f xs).
Proof.
  intros Hc. induction xs as [|x xs IH]; simpl; [done|].
  rewrite IH. simpl. by apply sort_insert_pure.
Qed.

Lemma StronglySorted_weaken {A : Type} (R R' : A → A → Prop) xs :
  (∀ a b, R a b → R' a b) → StronglySorted R xs → StronglySorted R' xs.
Proof.
  intros HR. induction 1 as [|a xs Hs IH Ha]; constructor; [done|].
  eapply Forall_impl; [exact Ha | auto].
Qed.

(** ** Order of strings *)

Lemma String_compare_lt_trans a b c :
  String.compare a b = Lt → String.compare b c = Lt → String.compare a c = Lt.
Proof.
  revert b c. induction a as [|x a IH]; intros [|y b] [|z c]; simpl;
    try done.
  unfold Ascii.compare.
  destruct (N.compare_spec (N_of_ascii x) (N_of_ascii y)),
           (N.compare_spec (N_of_ascii y) (N_of_ascii z)),
           (N.compare_spec (N_of_ascii x) (N_of_ascii z));
    try done; try lia; eauto.
Qed.

Lemma String_ltb_trans a b c :
  String.ltb a b = true → String.ltb b c = true → String.ltb a c = true.
Proof.
  unfold String.ltb. intros Hab Hbc.
  rewrite (String_compare_lt_trans a b c); [done| |].
  - by destruct (String.compare a b).
  - by destruct (String.compare b c).
Qed.

Lemma String_ltb_asym a b : String.ltb a b = true → String.ltb b a = false.
Proof.
  unfold String.ltb. rewrite (String.compare_antisym b a).
  by destruct (String.compare a b).
Qed.

Lemma String_ltb_tie a b :
  String.ltb a b = false → String.ltb b a = false → a = b.
Proof.
  unfold String.ltb. rewrite (String.compare_antisym b a).
  destruct (String.compare a b) eqn:E; try done.
  intros _ _. by apply String.compare_eq_iff.
Qed.

(** ** The comparator *)

Section ComparatorFacts.
Variable StringToNumber : string → option Z.

#[local] Abbreviation lessThan := (lessThan StringToNumber).
#[local] Abbreviation compareZ := (compareZ StringToNumber).
#[local] Abbreviation comparator := (comparator StringToNumber).

Lemma lessThan_strings a b : lessThan (JStr a) (JStr b) = String.ltb a b.
Proof. reflexivity. Qed.

Lemma lessThan_unfold x y :
  lessThan x y
  = match ToPrimitive x, ToPrimitive y with
    | JStr a, JStr b => String.ltb a b
    | px, py => numLt (ToNumber StringToNumber px) (ToNumber StringToNumber py)
    end.
Proof. unfold lessThan. by destruct (ToPrimitive x), (ToPrimitive y). Qed.

Lemma numLt_asym p q : numLt p q = true → numLt q p = false.
Proof.
  destruct p as [a|], q as [b|]; simpl; try done.
  intros H. apply Z.ltb_lt in H. apply Z.ltb_ge. lia.
Qed.

Lemma lessThan_asym x y : lessThan x y = true → lessThan y x = false.
Proof.
  rewrite !lessThan_unfold.
  destruct (ToPrimitive x), (ToPrimitive y);
    first [apply numLt_asym | apply String_ltb_asym].
Qed.

Lemma lessThan_irrefl x : lessThan x x = false.
Proof.
  destruct (lessThan x x) eqn:E; [|done].
  pose proof (lessThan_asym x x E). congruence.
Qed.

Lemma lessThan_undefined_l y : lessThan JUndefined y = false.
Proof. rewrite lessThan_unfold. simpl. by destruct (ToPrimitive y). Qed.

Lemma lessThan_undefined_r x : lessThan x JUndefined = false.
Proof.
  rewrite lessThan_unfold.
  destruct (ToPrimitive x) as [| |b|z|s|m|c i]; simpl; try done.
  unfold numLt. by destruct (StringToNumber s).
Qed.

Lemma sortValue_keyOf col (r : User) :
  sortValue col (JObj r) = Ok (keyOf col r).
Proof.
  unfold keyOf.
  assert (returns (sortValue col (JObj r))) as [v ->]; [|done].
  unfold sortValue.
  destruct (getNestedValue_returns (JObj r) col) as [v Hv]. rewrite Hv. simpl.
  destruct v as [| | | | | |[] ?]; simpl; eauto; by eexists.
Qed.

Lemma keyOf_undefined col (r : User) :
  getNestedValue (JObj r) col = Ok JUndefined → keyOf col r = JUndefined.
Proof.
  intros H. unfold keyOf, sortValue. by rewrite H.
Qed.

Lemma keyOf_string col (r : User) s :
  getNestedValue (JObj r) col = Ok (JStr s) →
  keyOf col r = JStr (toLowerCase s).
Proof.
  intros H. unfold keyOf, sortValue. by rewrite H.
Qed.

Lemma comparator_pure col dir a b :
  comparator col dir a b = Ok (compareZ col dir a b).
Proof.
  unfold comparator, compareZ. rewrite !sortValue_keyOf. simpl.
  by repeat destruct (lessThan _ _).
Qed.

Lemma compareZ_refl col dir a : compareZ col dir a a = 0.
Proof. unfold compareZ. by rewrite lessThan_irrefl. Qed.

Lemma compareZ_antisym col dir a b :
  compareZ col dir b a = - compareZ col dir a b.
Proof.
  unfold compareZ.
  destruct (lessThan (keyOf col a) (keyOf col b)) eqn:Eab.
  - rewrite (lessThan_asym _ _ Eab). by destruct dir.
  - destruct (lessThan (keyOf col b) (keyOf col a)); by destruct dir.
Qed.

Lemma compareZ_descending col a b :
  compareZ col descending a b = - compareZ col ascending a b.
Proof.
  unfold compareZ. by repeat destruct (lessThan _ _).
Qed.

Lemma compareZ_direction col dir a b :
  compareZ col dir a b
  = match dir with
    | ascending => compareZ col ascending a b
    | descending => - compareZ col ascending a b
    end.
Proof. destruct dir; [done | apply compareZ_descending]. Qed.

Lemma compareZ_tied col dir a b :
  compareZ col dir a b = 0 ↔ tied StringToNumber col a b.
Proof.
  unfold compareZ, tied.
  destruct (lessThan (keyOf col a) (keyOf col b)),
           (lessThan (keyOf col b) (keyOf col a)), dir; split;
    try done; intros [? ?]; done.
Qed.

Lemma compareZ_inOrder col dir a b :
  compareZ col dir a b ≤ 0 ↔ inOrder StringToNumber col dir a b.
Proof.
  unfold compareZ, inOrder.
  destruct (lessThan (keyOf col a) (keyOf col b)) eqn:Eab.
  - rewrite (lessThan_asym _ _ Eab). destruct dir; split; done.
  - destruct (lessThan (keyOf col b) (keyOf col a)), dir; split; done.
Qed.

Lemma consistent_trans_eq col dir xs :
  consistent_comparator (comparator col ascending) xs →
  ∀ a b c, a ∈ xs → b ∈ xs → c ∈ xs →
    compareZ col dir a b = 0 → compareZ col dir b c = 0 →
    compareZ col dir a c = 0.
Proof.
  intros Hc a b c Ha Hb Hd.
  destruct (Hc a b c Ha Hb Hd _ _ _ (comparator_pure _ _ _ _)
              (comparator_pure _ _ _ _) (comparator_pure _ _ _ _))
    as (Heq & _ & _).
  rewrite !(compareZ_direction col dir). destruct dir; lia.
Qed.

Lemma consistent_trans_lt col dir xs :
  consistent_comparator (comparator col ascending) xs →
  ∀ a b c, a ∈ xs → b ∈ xs → c ∈ xs →
    compareZ col dir a b < 0 → compareZ col dir b c < 0 →
    compareZ col dir a c < 0.
Proof.
  intros Hc a b c Ha Hb Hd.
  destruct (Hc a b c Ha Hb Hd _ _ _ (comparator_pure _ _ _ _)
              (comparator_pure _ _ _ _) (comparator_pure _ _ _ _))
    as (_ & Hlt & Hgt).
  rewrite !(compareZ_direction col dir). destruct dir; lia.
Qed.

End ComparatorFacts.

(** ** Consistent comparators *)

Section Consistency.
Variable StringToNumber : string → option Z.

#[local] Abbreviation lt_key col a b :=
  (lessThan StringToNumber (keyOf col a) (keyOf col b)).

Lemma compareZ_ascending_neg col a b :
  compareZ StringToNumber col ascending a b < 0 ↔ lt_key col a b = true.
Proof.
  unfold compareZ.
  destruct (lt_key col a b), (lt_key col b a); split; done.
Qed.

Lemma compareZ_ascending_pos col a b :
  0 < compareZ StringToNumber col ascending a b ↔ lt_key col b a = true.
Proof.
  unfold compareZ. destruct (lt_key col a b) eqn:Eab.
  - rewrite (lessThan_asym _ _ _ Eab). split; done.
  - destruct (lt_key col b a); split; done.
Qed.

(** The comparator is consistent where [<] on the sort values is
    transitive and ties are transitive. *)
Lemma consistent_from_keys col xs :
  (∀ a b c, a ∈ xs → b ∈ xs → c ∈ xs →
     lt_key col a b = true → lt_key col b c = true → lt_key col a c = true) →
  (∀ a b c, a ∈ xs → b ∈ xs → c ∈ xs →
     tied StringToNumber col a b → tied StringToNumber col b c →
     tied StringToNumber col a c) →
  consistent_comparator (comparator StringToNumber col ascending) xs.
Proof.
  intros Hlt Htie a b c Ha Hb Hc ab bc ac.
  rewrite !comparator_pure. intros [= <-] [= <-] [= <-].
  split; [|split].
  - rewrite !compareZ_tied. by apply Htie.
  - rewrite !compareZ_ascending_neg. by apply Hlt.
  - rewrite !compareZ_ascending_pos. intros Hba Hcb. by apply (Hlt c b a).
Qed.

(** Sort values that are all strings: the documented records sorted by
    [name], [email] or [address.city]. *)
Lemma stringKeys_consistent col xs :
  (∀ r, r ∈ xs → stringKey col r) →
  consistent_comparator (comparator StringToNumber col ascending) xs.
Proof.
  intros Hs. apply consistent_from_keys.
  - intros a b c Ha Hb Hc.
    destruct (Hs a Ha) as [sa ->], (Hs b Hb) as [sb ->], (Hs c Hc) as [sc ->].
    rewrite !lessThan_strings. apply String_ltb_trans.
  - intros a b c Ha Hb Hc. unfold tied.
    destruct (Hs a Ha) as [sa ->], (Hs b Hb) as [sb ->], (Hs c Hc) as [sc ->].
    rewrite !lessThan_strings. intros [H1 H2] [H3 H4].
    rewrite (String_ltb_tie sa sb H1 H2), (String_ltb_tie sb sc H3 H4).
    pose proof (lessThan_irrefl StringToNumber (JStr sc)) as Hirr.
    rewrite lessThan_strings in Hirr. done.
Qed.

(** An unknown sort field: every sort value is [undefined]. *)
Lemma missingKeys_consistent col xs :
  (∀ r : User, r ∈ xs → getNestedValue (JObj r) col = Ok JUndefined) →
  consistent_comparator (comparator StringToNumber col ascending) xs.
Proof.
  intros Hm. apply consistent_from_keys.
  - intros a b c Ha Hb Hc.
    rewrite (keyOf_undefined col a (Hm a Ha)).
    by rewrite lessThan_undefined_l.
  - intros a b c Ha Hb Hc _ _. unfold tied.
    rewrite (keyOf_undefined col a (Hm a Ha)).
    by rewrite lessThan_undefined_l, lessThan_undefined_r.
Qed.

(** ** The sort stage *)

Lemma sortStage_pure xs col dir :
  sortStage StringToNumber xs col dir
  = Ok (if truthy (JStr col)
        then sort_by (compareZ StringToNumber col dir) xs
        else xs).
Proof.
  unfold sortStage. destruct (truthy (JStr col)); [|done].
  apply Array_sort_pure. intros a b. apply comparator_pure.
Qed.

Lemma sortStage_perm xs col dir out :
  sortStage StringToNumber xs col dir = Ok out → out ≡ₚ xs.
Proof.
  rewrite sortStage_pure.
  destruct (truthy (JStr col)); intros [= <-]; [apply sort_by_perm | done].
Qed.

Lemma sortStage_stable xs col dir out x :
  consistent_comparator (comparator StringToNumber col ascending) xs →
  sortStage StringToNumber xs col dir = Ok out →
  x ∈ xs →
  filter (tied StringToNumber col x) out
  = filter (tied StringToNumber col x) xs.
Proof.
  intros Hc. rewrite sortStage_pure.
  destruct (truthy (JStr col)); intros [= <-] Hx; [|done].
  assert (Forall (.∈ xs) xs) as Hall by (by apply Forall_forall).
  pose proof (sort_by_stable (compareZ StringToNumber col dir) (.∈ xs)
                (fun a b _ _ => compareZ_antisym _ col dir a b)
                (consistent_trans_eq _ col dir xs Hc) x xs Hx Hall) as Hst.
  etransitivity; [|etransitivity; [exact Hst|]];
    apply list_filter_iff; intros y; unfold tie_by; by rewrite compareZ_tied.
Qed.

Lemma sortStage_sorted xs col dir out :
  consistent_comparator (comparator StringToNumber col ascending) xs →
  sortStage StringToNumber xs col dir = Ok out →
  col ≠ ""%string →
  StronglySorted (inOrder StringToNumber col dir) out.
Proof.
  intros Hc Hout Hcol. apply truthy_JStr in Hcol.
  rewrite sortStage_pure, Hcol in Hout. injection Hout as <-.
  apply StronglySorted_weaken
    with (R := fun a b => compareZ StringToNumber col dir a b ≤ 0).
  { intros a b. by rewrite compareZ_inOrder. }
  apply (sort_by_sorted _ (.∈ xs)
           (fun a b _ _ => compareZ_antisym _ col dir a b)
           (consistent_trans_eq _ col dir xs Hc)
           (consistent_trans_lt _ col dir xs Hc)).
  by apply Forall_forall.
Qed.

(** The stable insertion sort stands for every engine: under a consistent
    comparator, any array that holds the same records, is in order and
    keeps ties in input order is the one the sort stage returns. *)
Lemma sortStage_determined xs col dir out :
  consistent_comparator (comparator StringToNumber col ascending) xs →
  col ≠ ""%string →
  out ≡ₚ xs →
  StronglySorted (inOrder StringToNumber col dir) out →
  (∀ x, x ∈ xs →
     filter (tied StringToNumber col x) out
     = filter (tied StringToNumber col x) xs) →
  sortStage StringToNumber xs col dir = Ok out.
Proof.
  intros Hc Hcol Hperm Hs Hst. apply truthy_JStr in Hcol.
  rewrite sortStage_pure, Hcol. f_equal. symmetry.
  apply (stable_sort_unique (compareZ StringToNumber col dir) (.∈ xs)
           (fun a _ => compareZ_refl _ col dir a)
           (fun a b _ _ => compareZ_antisym _ col dir a b)
           (consistent_trans_eq _ col dir xs Hc)
           (consistent_trans_lt _ col dir xs Hc)).
  - by apply Forall_forall.
  - done.
  - apply StronglySorted_weaken with (R := inOrder StringToNumber col dir);
      [|done].
    intros a b. unfold le_by. by rewrite compareZ_inOrder.
  - intros z Hz. specialize (Hst z Hz).
    etransitivity; [|etransitivity; [exact Hst|]];
      apply list_filter_iff; intros y; unfold tie_by; by rewrite compareZ_tied.
Qed.

Lemma consistent_comparator_perm {A : Type}
    (comparefn : A → A → Completion Z) xs ys :
  xs ≡ₚ ys → consistent_comparator comparefn xs →
  consistent_comparator comparefn ys.
Proof.
  intros Hp Hc a b c Ha Hb Hd. apply Hc; by rewrite Hp.
Qed.


End Consistency.

(** ** The claims on the sort stage and on the pipeline *)

Lemma comparator_missing StringToNumber col dir (a b : User) :
  getNestedValue (JObj a) col = Ok JUndefined ∨
  getNestedValue (JObj b) col = Ok JUndefined →
  comparator StringToNumber col dir a b = Ok 0.
Proof.
  intros Hmiss. rewrite comparator_pure. f_equal.
  apply compareZ_tied. unfold tied.
  destruct Hmiss as [H|H]; rewrite (keyOf_undefined _ _ H);
    by rewrite lessThan_undefined_l, lessThan_undefined_r.
Qed.





End Properties.

(** ** The statements at work

    Instances of the statements above and the examples on which the
    specification fails.  Where no engine is named, an instance is
    evaluated in [exampleEngine]. *)





Lemma C1_filter_stage_postcondition_witness :
  let user n : User := {[ "name" := JStr n ]} in
  ∃ out,
    filterStage [user "Bob"; user "alice"; user "Carol"] "A" = Ok out ∧
    out = [user "alice"; user "Carol"] ∧
    out `sublist_of` [user "Bob"; user "alice"; user "Carol"].
Proof.
  intros user.
  destruct C1_filter_stage_postcondition as [_ H].
  destruct (H [user "Bob"; user "alice"; user "Carol"] "A"%string)
    as (out & Hout & Heq & Hsub & _).
  - discriminate.
  - intros u Hu. apply list_elem_of_In in Hu. simpl in Hu.
    destruct Hu as [<- | [<- | [<- | []]]]; eexists; reflexivity.
  - exists out. split; [exact Hout|]. split; [|exact Hsub].
    rewrite Heq. reflexivity.
Defined.

Lemma C3_pagination_covers_witness :
  let rows : list Z := seqZ 100 12 in
  concat ((fun p => paginatedUsers rows p 5) <$> seqZ 0 (numberOfPages rows 5))
  = rows ∧
  numberOfPages rows 5 = 3 ∧
  length (paginatedUsers rows 0 5) = 5%nat ∧
  length (paginatedUsers rows 2 5) = 2%nat.
Proof.
  intros rows.
  destruct C3_pagination_covers as [Hcover Htwelve].
  split.
  - apply (Hcover Z rows 5). lia.
  - apply (Htwelve Z rows). reflexivity.
Defined.

Lemma C9_credential_gate_witness :
  let w := {| storage := ∅; route := "Login"; alerts := [] |} in
  (storage (handleLogin "test@gmail.com" "pass123" w) !! "user"
   = Some (JSON_stringify_email "test@gmail.com") ∧
   route (handleLogin "test@gmail.com" "pass123" w) = "Home"%string) ∧
  rejectedWith "Login Failed" "Invalid email or password"
               w (handleLogin "test@gmail.com" "wrong" w) ∧
  rejectedWith "Invalid Email" "Please enter a valid email address"
               w (handleLogin "test@gmail" "pass123" w) ∧
  rejectedWith "Validation Error" "Please enter both email and password"
               w (handleLogin "" "pass123" w).
Proof.
  intros w. split; [|split; [|split]].
  - destruct (C9_credential_gate "test@gmail.com" "pass123" w) as [Hin _].
    destruct Hin as (_ & Hkey & Hroute & _); [done|]. by split.
  - destruct (C9_credential_gate "test@gmail.com" "wrong" w) as [_ Hout].
    destruct Hout as (_ & _ & Hfail & _); [by intros [_ ?]|].
    by apply Hfail.
  - destruct (C9_credential_gate "test@gmail" "pass123" w) as [_ Hout].
    destruct Hout as (_ & Hbad & _); [by intros [? _]|].
    by apply Hbad.
  - destruct (C9_credential_gate "" "pass123" w) as [_ Hout].
    destruct Hout as (Hempty & _); [by intros [? _]|].
    apply Hempty. by left.
Defined.








(** * Further properties of the two screens *)

(** ** The matcher decides the language *)

Lemma matches_Cat_inv r s w :
  matches (Cat r s) w ↔ ∃ u v, w = (u ++ v)%string ∧ matches r u ∧ matches s v.
Proof.
  split.
  - inversion 1; subst; eauto.
  - intros (u & v & -> & Hu & Hv). by constructor.
Qed.

Lemma string_app_nil_l (v : string) : (""%string ++ v)%string = v.
Proof. reflexivity. Qed.

Lemma string_app_cons c (u v : string) :
  (String c u ++ v)%string = String c (u ++ v)%string.
Proof. reflexivity. Qed.

Ltac string_app :=
  repeat first [rewrite string_app_nil_l | rewrite string_app_cons].

Ltac string_app_in H :=
  repeat first [rewrite string_app_nil_l in H | rewrite string_app_cons in H].

Section FurtherProperties.

Context {engine : Engine}.

Lemma string_app_nil_inv (u v : string) :
  (u ++ v)%string = ""%string → u = ""%string ∧ v = ""%string.
Proof. destruct u; simpl; [done | discriminate]. Qed.

Lemma nullable_spec r : nullable r = true ↔ matches r "".
Proof.
  split.
  - induction r as [| |p|r IHr s IHs|r IHr s IHs|r IHr]; simpl; try done.
    + intros _. constructor.
    + intros [Hr Hs]%andb_true_iff.
      apply (matches_Cat r s "" ""); auto.
    + intros [Hr|Hs]%orb_true_iff; [apply matches_Alt_l | apply matches_Alt_r];
        auto.
    + intros _. constructor.
  - intros H. remember ""%string as w eqn:E.
    induction H as [|p c Hp|r s u v Hu IHu Hv IHv|r s u Hu IHu|r s u Hu IHu
                    |r|r u v Hu IHu Hv IHv]; simpl; try done.
    + apply string_app_nil_inv in E as [-> ->].
      by rewrite IHu, IHv.
    + by rewrite IHu.
    + rewrite IHu by done. apply orb_true_r.
Qed.

Lemma deriv_sound c r s : matches (deriv c r) s → matches r (String c s).
Proof.
  revert s. induction r as [| |p|r IHr r' IHr'|r IHr r' IHr'|r IHr];
    intros s; simpl.
  - inversion 1.
  - inversion 1.
  - destruct (p c) eqn:Hp; inversion 1; subst. by constructor.
  - assert (matches (Cat (deriv c r) r') s → matches (Cat r r') (String c s))
      as Hleft.
    { intros (u & v & -> & Hu & Hv)%matches_Cat_inv.
      apply (matches_Cat r r' (String c u) v); auto. }
    destruct (nullable r) eqn:Hn; [|done].
    inversion 1; subst; [auto|].
    apply (matches_Cat r r' "" (String c s)); [by apply nullable_spec | auto].
  - inversion 1; subst; [apply matches_Alt_l | apply matches_Alt_r]; auto.
  - intros (u & v & -> & Hu & Hv)%matches_Cat_inv.
    apply (matches_Star_cons r (String c u) v); auto.
Qed.

Lemma deriv_complete c r s : matches r (String c s) → matches (deriv c r) s.
Proof.
  intros H. remember (String c s) as w eqn:E. revert s E.
  induction H as [|p c' Hp|r r' u v Hu IHu Hv IHv|r r' u Hu IHu|r r' u Hu IHu
                  |r|r u v Hu IHu Hv IHv]; intros s0 E; simpl.
  - discriminate.
  - injection E as -> <-. rewrite Hp. constructor.
  - destruct u as [|c' u]; string_app_in E.
    + subst v. apply nullable_spec in Hu. rewrite Hu.
      apply matches_Alt_r. by apply IHv.
    + injection E as -> <-.
      assert (matches (Cat (deriv c r) r') (u ++ v)) as Hcat
        by (constructor; auto).
      destruct (nullable r); [by apply matches_Alt_l | done].
  - apply matches_Alt_l. by apply IHu.
  - apply matches_Alt_r. by apply IHu.
  - discriminate.
  - destruct u as [|c' u]; string_app_in E.
    + subst v. by apply IHv.
    + injection E as -> <-. constructor; auto.
Qed.

Lemma regex_test_spec r s : regex_test r s = true ↔ matches r s.
Proof.
  revert r. induction s as [|c s IH]; intros r; simpl.
  - apply nullable_spec.
  - rewrite IH. split; [apply deriv_sound | apply deriv_complete].
Qed.

Lemma matches_Class_inv p w :
  matches (Class p) w ↔ ∃ c, w = String c "" ∧ p c = true.
Proof.
  split.
  - inversion 1; subst; eauto.
  - intros (c & -> & Hp). by constructor.
Qed.

Lemma matches_unit c w : matches (Class (Ascii.eqb c)) w ↔ w = String c "".
Proof.
  rewrite matches_Class_inv. split.
  - intros (c' & -> & ->%Ascii.eqb_eq). done.
  - intros ->. exists c. by rewrite Ascii.eqb_refl.
Qed.

Lemma matches_Star_Class p w :
  matches (Star (Class p)) w ↔ all_units p w = true.
Proof.
  split.
  - intros H. remember (Star (Class p)) as r eqn:E.
    induction H as [| | | | |r|r u v Hu IHu Hv IHv]; try discriminate.
    + done.
    + injection E as ->.
      apply matches_Class_inv in Hu as (c & -> & Hc). string_app. simpl.
      by rewrite Hc, IHv.
  - induction w as [|c w IH]; simpl.
    + intros _. constructor.
    + intros [Hc Hw]%andb_true_iff.
      apply (matches_Star_cons (Class p) (String c "") w); [by constructor|].
      by apply IH.
Qed.

Lemma matches_Plus_Class p w :
  matches (Plus (Class p)) w ↔ w ≠ ""%string ∧ all_units p w = true.
Proof.
  unfold Plus. rewrite matches_Cat_inv. split.
  - intros (u & v & -> & (c & -> & Hc)%matches_Class_inv
            & Hv%matches_Star_Class).
    string_app. simpl. by rewrite Hc, Hv.
  - intros [Hne Hall]. destruct w as [|c w]; [done|].
    simpl in Hall. apply andb_true_iff in Hall as [Hc Hw].
    exists (String c ""), w. split; [done|].
    split; [by constructor | by apply matches_Star_Class].
Qed.

(** ** The email pattern *)

Lemma matches_emailRegex w :
  matches emailRegex w ↔
  ∃ l d t, w = (l ++ String "@" (d ++ String "." t))%string ∧
           solid l ∧ solid d ∧ solid t.
Proof.
  unfold emailRegex, solid. split.
  - intros (l & w1 & -> & Hl%matches_Plus_Class
            & (a & w2 & -> & ->%matches_unit
               & (d & w3 & -> & Hd%matches_Plus_Class
                  & (p & t & -> & ->%matches_unit
                     & Ht%matches_Plus_Class)%matches_Cat_inv
                 )%matches_Cat_inv)%matches_Cat_inv)%matches_Cat_inv.
    by exists l, d, t.
  - intros (l & d & t & -> & Hl & Hd & Ht).
    apply matches_Cat_inv. exists l, (String "@" (d ++ String "." t)).
    split; [done|]. split; [by apply matches_Plus_Class|].
    apply (matches_Cat _ _ (String "@" "") (d ++ String "." t));
      [by apply matches_unit|].
    apply matches_Cat; [by apply matches_Plus_Class|].
    apply (matches_Cat _ _ (String "." "") t);
      [by apply matches_unit | by apply matches_Plus_Class].
Qed.

Lemma validateEmail_shape email :
  validateEmail email = true ↔
  ∃ l d t,
    email = (l ++ String "@" (d ++ String "." t))%string ∧
    solid l ∧ solid d ∧ solid t.
Proof.
  unfold validateEmail. rewrite regex_test_spec. apply matches_emailRegex.
Qed.

(** X1: the email pattern accepts exactly the strings [l@d.t] in which
    [l], [d] and [t] are non-empty and hold neither white space nor
    ['@'] (the part [d] may itself hold dots). *)
Theorem X1_validateEmail_shape :
  ∀ email : string,
    validateEmail email = true ↔
    ∃ l d t,
      email = (l ++ String "@" (d ++ String "." t))%string ∧
      solid l ∧ solid d ∧ solid t.
Proof.
  intros email. unfold validateEmail. split.
  - intros Htest. apply matches_emailRegex. by apply regex_test_spec.
  - intros Hshape. apply regex_test_spec. by apply matches_emailRegex.
Qed.

Lemma all_units_app p (u v : string) :
  all_units p (u ++ v) = all_units p u && all_units p v.
Proof.
  induction u as [|c u IH]; string_app; simpl; [done|].
  by rewrite IH, andb_assoc.
Qed.

Lemma count_unit_app c (u v : string) :
  count_unit c (u ++ v) = (count_unit c u + count_unit c v)%nat.
Proof.
  induction u as [|c' u IH]; string_app; simpl; [done|].
  rewrite IH. lia.
Qed.

Lemma string_length_app (u v : string) :
  String.length (u ++ v) = (String.length u + String.length v)%nat.
Proof.
  induction u as [|c u IH]; string_app; simpl; [done|]. by rewrite IH.
Qed.

Lemma solid_no_at s : solid s → count_unit "@" s = 0%nat.
Proof.
  intros [_ Hall]. induction s as [|c s IH]; simpl in *; [done|].
  apply andb_true_iff in Hall as [Hc Hs]. rewrite (IH Hs).
  unfold not_space_at in Hc. apply negb_true_iff, orb_false_iff in Hc as [_ ->].
  done.
Qed.

Lemma solid_no_space s :
  solid s → all_units (fun c => negb (is_space c)) s = true.
Proof.
  intros [_ Hall]. induction s as [|c s IH]; simpl in *; [done|].
  apply andb_true_iff in Hall as [Hc Hs]. rewrite (IH Hs), andb_true_r.
  unfold not_space_at in Hc.
  by apply negb_true_iff, orb_false_iff in Hc as [-> _].
Qed.

Lemma solid_length s : solid s → (1 ≤ String.length s)%nat.
Proof. intros [Hne _]. destruct s; simpl; [done | lia]. Qed.

(** X2: an accepted email holds no white space, exactly one ['@'], and at
    least five code units. *)
Theorem X2_validateEmail_accepts_only :
  ∀ email : string,
    validateEmail email = true →
    all_units (fun c => negb (is_space c)) email = true ∧
    count_unit "@" email = 1%nat ∧
    (5 ≤ String.length email)%nat.
Proof.
  intros email (l & d & t & -> & Hl & Hd & Ht)%validateEmail_shape.
  change (String "@" (d ++ String "." t))%string
    with (String "@" "" ++ (d ++ (String "." "" ++ t)))%string.
  rewrite !all_units_app, !count_unit_app, !string_length_app.
  rewrite (solid_no_space l), (solid_no_space d), (solid_no_space t) by done.
  rewrite (solid_no_at l), (solid_no_at d), (solid_no_at t) by done.
  pose proof (solid_length l Hl). pose proof (solid_length d Hd).
  pose proof (solid_length t Ht).
  repeat split; simpl; lia.
Qed.

(** ** The session *)

Lemma JSON_stringify_email_truthy email :
  truthy (JStr (JSON_stringify_email email)) = true.
Proof. reflexivity. Qed.

(** X3: a store that holds what a successful login wrote sends the next
    mount to the listing; logging in again writes the same store; and a
    login that is turned down on a store without a session leaves the next
    mount on the login screen. *)
Theorem X3_session_round_trip :
  (∀ w w0,
     storage w0 = storage (handleLogin "test@gmail.com" "pass123" w) →
     route (checkLoginStatus w0) = "Home"%string) ∧
  (∀ w,
     storage (handleLogin "test@gmail.com" "pass123"
                (handleLogin "test@gmail.com" "pass123" w))
     = storage (handleLogin "test@gmail.com" "pass123" w)) ∧
  (∀ email pass w w0,
     ¬ (email = "test@gmail.com"%string ∧ pass = "pass123"%string) →
     storage w !! "user" = None →
     storage w0 = storage (handleLogin email pass w) →
     checkLoginStatus w0 = w0).
Proof.
  split; [|split].
  - intros w w0 Hs. unfold checkLoginStatus, AsyncStorage_getItem.
    rewrite Hs, handleLogin_accepts. simpl.
    rewrite lookup_insert_eq. reflexivity.
  - intros w. rewrite !handleLogin_accepts. simpl.
    apply insert_insert_eq.
  - intros email pass w w0 Hne Hnone Hs.
    unfold checkLoginStatus, AsyncStorage_getItem. rewrite Hs.
    rewrite (handleLogin_rejects _ _ _ Hne).
    destruct (negb (truthy (JStr email)) || negb (truthy (JStr pass)));
      [|destruct (negb (validateEmail email))]; simpl; by rewrite Hnone.
Qed.

(** ** Case folding *)

Lemma toLowerCase_truthy s :
  truthy (JStr (toLowerCase s)) = truthy (JStr s).
Proof. by destruct s. Qed.

(** ** More on the filter stage *)

(** The callback of the filter, line 74-76. *)
Lemma filter_callback_returns term (u : User) :
  returns (let* name := getProp (JObj u) "name" in
           let* lowered := call_toLowerCase name in
           Ok (includes lowered (toLowerCase term)))
  ↔ ∃ n, hasName u n.
Proof.
  unfold hasName. simpl.
  destruct (u !! "name") as [[| | | |n| |]|]; simpl; split;
    try (intros [? ?]; discriminate); try (by eexists).
Qed.

Lemma Array_filter_returns {A : Type} (p : A → Completion bool) xs :
  returns (Array_filter p xs) ↔ ∀ x, x ∈ xs → returns (p x).
Proof.
  induction xs as [|x xs IH]; simpl.
  - split; [intros _ x Hx; by apply elem_of_nil in Hx | by eexists].
  - split.
    + intros [out Hout] y Hy.
      destruct (p x) as [b|e] eqn:Hp; [|done]. simpl in Hout.
      destruct (Array_filter p xs) as [rest|e] eqn:Hr; [|done].
      apply elem_of_cons in Hy as [->|Hy]; [by eexists|].
      apply IH; [by eexists | done].
    + intros Hall.
      destruct (Hall x) as [b ->]; [left|]. simpl.
      destruct (proj2 IH) as [rest ->]; [|by eexists].
      intros y Hy. apply Hall. by right.
Qed.

(** X4: with a non-empty search term the filter stage returns exactly
    when every record has a string [name]; one record without it makes
    the stage throw. *)
Theorem X4_filter_throws_without_name :
  ∀ (users : list User) (term : string),
    term ≠ ""%string →
    (returns (filterStage users term) ↔ ∀ u, u ∈ users → ∃ n, hasName u n) ∧
    ((∃ u, u ∈ users ∧ ¬ ∃ n, hasName u n) →
     filterStage users term = Throw TypeError).
Proof.
  intros users term Hterm. apply truthy_JStr in Hterm as Ht.
  assert (returns (filterStage users term)
          ↔ ∀ u, u ∈ users → ∃ n, hasName u n) as Hiff.
  { unfold filterStage. rewrite Ht, Array_filter_returns.
    split; intros H u Hu.
    - apply (filter_callback_returns term). auto.
    - apply (filter_callback_returns term). auto. }
  split; [done|].
  intros (u & Hu & Hno).
  destruct (filterStage users term) as [out|[]] eqn:E; [|done].
  exfalso. apply Hno. apply Hiff; [by eexists | done].
Qed.

Lemma Array_filter_refine {A : Type} (p p' : A → Completion bool) xs :
  (∀ x, returns (p x) ↔ returns (p' x)) →
  (∀ x, p' x = Ok true → p x = Ok true) →
  Array_filter p' xs = bind (Array_filter p xs) (Array_filter p').
Proof.
  intros Hret Himp. induction xs as [|x xs IH]; simpl; [done|].
  destruct (p x) as [b|[]] eqn:Hp, (p' x) as [b'|[]] eqn:Hp'; simpl.
  - rewrite IH.
    destruct (Array_filter p xs) as [rest|[]]; simpl; [|done].
    destruct b'.
    + rewrite (Himp x Hp') in Hp. injection Hp as <-.
      simpl. by rewrite Hp'.
    + destruct b; simpl; [rewrite Hp'; simpl|];
        by destruct (Array_filter p' rest) as [?|[]].
  - destruct (proj1 (Hret x)) as [? ?]; [by eexists|congruence].
  - destruct (proj2 (Hret x)) as [? ?]; [by eexists|congruence].
  - done.
Qed.

(** X5: filtering is idempotent: filtering what the filter stage returns
    once more with the same term changes nothing, and where the stage
    throws, so does the repeated one. *)
Theorem X5_filter_idempotent :
  ∀ (users : list User) (term : string),
    (let* narrowed := filterStage users term in filterStage narrowed term)
    = filterStage users term.
Proof.
  intros users term. unfold filterStage.
  destruct (truthy (JStr term)); [|done].
  symmetry. by apply Array_filter_refine.
Qed.

(** X6: the search ignores the case of the term: two terms with the same
    case folding give the same outcome of the filter stage. *)
Theorem X6_filter_term_case :
  ∀ (users : list User) (term term' : string),
    toLowerCase term = toLowerCase term' →
    filterStage users term = filterStage users term'.
Proof.
  intros users term term' Heq. unfold filterStage.
  rewrite <- (toLowerCase_truthy term), <- (toLowerCase_truthy term'), Heq.
  done.
Qed.

(** ** More on the comparator and the sort stage *)


Lemma String_ltb_compare a b :
  String.ltb a b = match String.compare a b with Lt => true | _ => false end.
Proof. reflexivity. Qed.

(** X8: where the sort field of both records is a string, the comparator
    orders them by their case-folded values, code unit by code unit: values
    that differ only in case tie. *)
Theorem X8_comparator_on_strings :
  ∀ StringToNumber col (a b : User) (sa sb : string),
    getNestedValue (JObj a) col = Ok (JStr sa) →
    getNestedValue (JObj b) col = Ok (JStr sb) →
    comparator StringToNumber col ascending a b
    = Ok (match String.compare (toLowerCase sa) (toLowerCase sb) with
          | Lt => -1
          | Eq => 0
          | Gt => 1
          end) ∧
    comparator StringToNumber col descending a b
    = Ok (match String.compare (toLowerCase sa) (toLowerCase sb) with
          | Lt => 1
          | Eq => 0
          | Gt => -1
          end).
Proof.
  intros S col a b sa sb Ha Hb.
  rewrite !comparator_pure. unfold compareZ.
  rewrite (keyOf_string col a sa Ha), (keyOf_string col b sb Hb).
  rewrite !lessThan_strings, !String_ltb_compare.
  rewrite (String.compare_antisym (toLowerCase sa) (toLowerCase sb)).
  by destruct (String.compare (toLowerCase sb) (toLowerCase sa)).
Qed.

Lemma sort_by_all_tie {A : Type} (f : A → A → Z) xs :
  (∀ a b, a ∈ xs → b ∈ xs → f a b = 0) → sort_by f xs = xs.
Proof.
  induction xs as [|x xs IH]; intros Htie; simpl; [done|].
  rewrite IH by (intros a b Ha Hb; apply Htie; by right).
  destruct xs as [|y xs]; simpl; [done|].
  rewrite (Htie x y) by (rewrite !elem_of_cons; auto). done.
Qed.

(** X9: a collection in which every two records tie comes back from the
    sort stage unchanged; so does every collection sorted by a field that
    no record has. *)
Theorem X9_sort_of_ties_is_identity :
  (∀ StringToNumber (xs : list User) col dir,
     (∀ a b, a ∈ xs → b ∈ xs →
        comparator StringToNumber col dir a b = Ok 0) →
     sortStage StringToNumber xs col dir = Ok xs) ∧
  (∀ StringToNumber (xs : list User) col dir,
     (∀ r : User, r ∈ xs → getNestedValue (JObj r) col = Ok JUndefined) →
     sortStage StringToNumber xs col dir = Ok xs).
Proof.
  assert (∀ S (xs : list User) col dir,
            (∀ a b, a ∈ xs → b ∈ xs → comparator S col dir a b = Ok 0) →
            sortStage S xs col dir = Ok xs) as Hties.
  { intros S xs col dir Htie. rewrite sortStage_pure.
    destruct (truthy (JStr col)); [|done]. f_equal.
    apply sort_by_all_tie. intros a b Ha Hb.
    specialize (Htie a b Ha Hb). rewrite comparator_pure in Htie.
    by injection Htie. }
  split; [exact Hties|].
  intros S xs col dir Hmiss. apply Hties.
  intros a b Ha Hb. apply comparator_missing. left. by apply Hmiss.
Qed.

(** X10: under a consistent comparator sorting is idempotent: the sort
    stage returns its own result unchanged. *)
Theorem X10_sort_idempotent :
  ∀ StringToNumber (xs out : list User) col dir,
    consistent_comparator (comparator StringToNumber col ascending) xs →
    sortStage StringToNumber xs col dir = Ok out →
    sortStage StringToNumber out col dir = Ok out.
Proof.
  intros S xs out col dir Hc Hout.
  destruct (decide (col = ""%string)) as [->|Hcol].
  { by rewrite sortStage_pure. }
  pose proof (sortStage_perm S _ _ _ _ Hout) as Hperm.
  apply sortStage_determined; try done.
  - by apply (consistent_comparator_perm _ xs); [symmetry|].
  - by apply (sortStage_sorted S xs).
Qed.


Lemma StronglySorted_reverse {A : Type} (R : A → A → Prop) xs :
  StronglySorted R xs → StronglySorted (flip R) (reverse xs).
Proof.
  induction 1 as [|x xs Hs IH Hx].
  - constructor.
  - rewrite reverse_cons. apply StronglySorted_app. split; [|split].
    + intros y x' Hy ->%list_elem_of_singleton.
      rewrite Forall_forall in Hx. apply Hx. by apply elem_of_reverse.
    + done.
    + repeat constructor.
Qed.

Lemma filter_at_most_one {A : Type} (P : A → Prop)
    `{∀ x, Decision (P x)} (x : A) xs :
  NoDup xs → (∀ y, y ∈ xs → P y → y = x) →
  reverse (filter P xs) = filter P xs.
Proof.
  intros Hnd Hall.
  assert (NoDup (filter P xs)) as Hnd' by (by apply NoDup_filter).
  assert (∀ y, y ∈ filter P xs → y = x) as Hx.
  { intros y [HP Hy]%list_elem_of_filter. by apply Hall. }
  destruct (filter P xs) as [|y [|z l]]; try done.
  exfalso. apply NoDup_cons in Hnd' as [Hnot _]. apply Hnot.
  rewrite (Hx y), (Hx z); [left | right; left | left].
Qed.

(** X12: where no two records of the collection tie, the descending sort
    is the ascending sort reversed. *)
Theorem X12_descending_reverses_without_ties :
  ∀ StringToNumber (xs : list User) col,
    col ≠ ""%string →
    consistent_comparator (comparator StringToNumber col ascending) xs →
    NoDup xs →
    (∀ a b, a ∈ xs → b ∈ xs → tied StringToNumber col a b → a = b) →
    ∃ up,
      sortStage StringToNumber xs col ascending = Ok up ∧
      sortStage StringToNumber xs col descending = Ok (reverse up).
Proof.
  intros S xs col Hcol Hc Hnd Hdistinct.
  destruct (sortStage S xs col ascending) as [up|e] eqn:Hup;
    [|by rewrite sortStage_pure in Hup].
  pose proof (sortStage_perm S _ _ _ _ Hup) as Hperm.
  exists up. split; [done|].
  apply sortStage_determined; try done.
  - by rewrite reverse_Permutation.
  - apply (StronglySorted_reverse (inOrder S col ascending)).
    by apply (sortStage_sorted S xs).
  - intros x Hx. rewrite filter_reverse.
    rewrite (sortStage_stable S xs col ascending up x Hc Hup Hx).
    apply (filter_at_most_one _ x); [done|].
    intros y Hy Ht. symmetry. by apply Hdistinct.
Qed.

(** ** More on pagination *)

Lemma paginatedUsers_length {A : Type} (processed : list A) page size :
  0 ≤ page → 0 ≤ size →
  Z.of_nat (length (paginatedUsers processed page size))
  = Z.max 0 (Z.min size (Z.of_nat (length processed) - page * size)).
Proof.
  intros Hp Hs. rewrite paginatedUsers_take_drop by done.
  rewrite length_take, length_drop. nia.
Qed.

Lemma paginatedUsers_sublist {A : Type} (processed : list A) page size :
  paginatedUsers processed page size `sublist_of` processed.
Proof.
  unfold paginatedUsers, Array_slice.
  etransitivity; [apply sublist_take | apply sublist_drop].
Qed.


(** X13: at a positive page size the page [p >= 0] holds
    [min(size, L - p * size)] rows (none if that is negative): every page
    before the last is full, the last page holds between one row and
    [size] rows, and there are no pages exactly when there are no rows. *)
Theorem X13_page_fill :
  ∀ (A : Type) (processed : list A) (page size : Z),
    0 ≤ page → 0 < size →
    let n := numberOfPages processed size in
    let shown := Z.of_nat (length (paginatedUsers processed page size)) in
    shown = Z.max 0 (Z.min size (Z.of_nat (length processed) - page * size)) ∧
    (page < n - 1 → shown = size) ∧
    (page = n - 1 → 0 < shown ≤ size) ∧
    (n = 0 ↔ processed = []).
Proof.
  intros A processed page size Hp Hs n shown.
  pose proof (numberOfPages_ceiling processed size Hs) as Hn.
  cbv zeta in Hn. fold n in Hn. clearbody n.
  assert (shown
          = Z.max 0 (Z.min size (Z.of_nat (length processed) - page * size)))
    as Hshown by (apply paginatedUsers_length; lia).
  clearbody shown.
  split; [done|]. split; [|split].
  - intros Hlt. nia.
  - intros ->. nia.
  - split.
    + intros ->. destruct processed; [done | simpl in Hn; lia].
    + intros ->. simpl in Hn. nia.
Qed.

(** X14: row [i] of page [p] is row [p * size + i] of the whole
    sequence. *)
Theorem X14_page_row_index :
  ∀ (A : Type) (processed : list A) (page size : Z) (i : nat),
    0 ≤ page → 0 ≤ size → Z.of_nat i < size →
    paginatedUsers processed page size !! i
    = processed !! (Z.to_nat (page * size) + i)%nat.
Proof.
  intros A processed page size i Hp Hs Hi.
  rewrite paginatedUsers_take_drop by done.
  rewrite lookup_take_lt by lia. apply lookup_drop.
Qed.

Lemma relative_index_step len k d :
  0 ≤ d → relative_index len (k + d) - relative_index len k ≤ d.
Proof.
  intros Hd. unfold relative_index.
  destruct (Z.ltb_spec (k + d) 0), (Z.ltb_spec k 0); lia.
Qed.

(** X15: for every page index and page size, negative ones included, a
    page is a run of consecutive rows of the sequence, in their order; and
    for a page size that is not negative it holds at most [size] rows,
    whatever the page index. *)
Theorem X15_page_is_a_window :
  ∀ (A : Type) (processed : list A) (page size : Z),
    (∃ before after,
       processed = before ++ paginatedUsers processed page size ++ after) ∧
    paginatedUsers processed page size `sublist_of` processed ∧
    (0 ≤ size →
     Z.of_nat (length (paginatedUsers processed page size)) ≤ size).
Proof.
  intros A processed page size. unfold paginatedUsers, Array_slice.
  set (len := Z.of_nat (length processed)).
  set (k := relative_index len (page * size)).
  set (final := relative_index len (page * size + size)).
  split; [|split].
  - exists (take (Z.to_nat k) processed),
           (drop (Z.to_nat (final - k)) (drop (Z.to_nat k) processed)).
    by rewrite take_drop, take_drop.
  - fold len k final. apply (paginatedUsers_sublist processed page size).
  - intros Hs. rewrite length_take.
    pose proof (relative_index_step len (page * size) size Hs). lia.
Qed.

(** X16: the label of the pagination control counts the rows shown: on a
    page that starts before the end of the rows, it runs from the position
    of the first row shown to that of the last, and the rows shown are
    [to - from + 1]; on a page that starts at or past the end no row is
    shown and the label runs backwards, and for an empty listing it reads
    ["1-0 of 0"]. *)
Theorem X16_label_counts_rows :
  (∀ (A : Type) (processed : list A) (page size : Z),
     0 ≤ page → 0 < size →
     let from := labelFrom page size in
     let to := labelTo processed page size in
     let shown := Z.of_nat (length (paginatedUsers processed page size)) in
     (page * size < Z.of_nat (length processed) →
      1 ≤ from ≤ to ∧ to ≤ Z.of_nat (length processed) ∧
      shown = to - from + 1) ∧
     (Z.of_nat (length processed) ≤ page * size → to < from ∧ shown = 0)) ∧
  (∀ (A : Type) (size : Z),
     0 ≤ size → paginationLabel (@nil A) 0 size = "1-0 of 0"%string).
Proof.
  split.
  - intros A processed page size Hp Hs from to shown.
    assert (shown
            = Z.max 0 (Z.min size (Z.of_nat (length processed) - page * size)))
      as Hshown by (apply paginatedUsers_length; lia).
    clearbody shown. subst from to. unfold labelFrom, labelTo.
    split; intros Hrange; nia.
  - intros A size Hs. unfold paginationLabel, labelFrom, labelTo. simpl.
    rewrite Z.min_r by lia. reflexivity.
Qed.

(** ** The pipeline from end to end *)





(** ** Fetching *)

(** X18: however the request settles, the effect ends with the loading
    flag off and with either no error and the parsed array as the users, or
    the error message and no users; a response that is not [ok] counts as
    an error whatever its body; and the search term, the sort and the page
    are left as they were. *)
Theorem X18_fetch_settles :
  ∀ (response : Settled Response) (s : Screen),
    let s' := fetchEffect response s in
    loading s' = false ∧
    (error s' = None ∨ users (app s') = []) ∧
    (searchQuery (app s') = searchQuery (app s) ∧
     sortColumn (app s') = sortColumn (app s) ∧
     sortDirection (app s') = sortDirection (app s) ∧
     page (app s') = page (app s) ∧
     itemsPerPage (app s') = itemsPerPage (app s)) ∧
    (∀ r data,
       response = Fulfilled r → ok r = true → json r = Fulfilled data →
       error s' = None ∧ users (app s') = data) ∧
    (∀ r,
       response = Fulfilled r → ok r = false →
       error s' = Some "Network response was not ok"%string ∧
       users (app s') = []) ∧
    (∀ r message,
       response = Fulfilled r → ok r = true → json r = Rejected message →
       error s' = Some message ∧ users (app s') = []) ∧
    (∀ message,
       response = Rejected message →
       error s' = Some message ∧ users (app s') = []).
Proof.
  intros response s s'. subst s'. unfold fetchEffect, fetchSettled.
  split; [done|]. split.
  { destruct (fetchedData response); simpl; auto. }
  split.
  { destruct (fetchedData response); simpl; auto. }
  repeat split; intros; subst; simpl;
    repeat match goal with
           | H : ok _ = _ |- _ => rewrite H; clear H
           | H : json _ = _ |- _ => rewrite H; clear H
           end; done.
Qed.

(** ** Rendering *)

Lemma getProp_returns v k :
  returns (getProp v k) ↔ v ≠ JUndefined ∧ v ≠ JNull.
Proof.
  destruct v; simpl; split; try (intros [? ?]; done); try (by eexists);
    try done.
Qed.

Lemma renderRow_unfold (u : User) :
  renderRow u
  = (let* city := getProp (addressOf u) "city" in
     Ok {| rowKey := default JUndefined (u !! "id");
           nameCell := default JUndefined (u !! "name");
           emailCell := default JUndefined (u !! "email");
           cityCell := city |}).
Proof. reflexivity. Qed.

Lemma renderRow_returns (u : User) : returns (renderRow u) ↔ hasAddress u.
Proof.
  rewrite renderRow_unfold. unfold hasAddress.
  rewrite <- (getProp_returns (addressOf u) "city").
  destruct (getProp (addressOf u) "city"); simpl; split;
    try (intros [? ?]; done); by eexists.
Qed.

Lemma Array_map_returns {A B : Type} (f : A → Completion B) xs :
  returns (Array_map f xs) ↔ ∀ x, x ∈ xs → returns (f x).
Proof.
  induction xs as [|x xs IH]; simpl.
  - split; [intros _ x Hx; by apply elem_of_nil in Hx | by eexists].
  - split.
    + intros [out Hout] y Hy.
      destruct (f x) as [b|e] eqn:Hf; [|done]. simpl in Hout.
      destruct (Array_map f xs) as [rest|e] eqn:Hr; [|done].
      apply elem_of_cons in Hy as [->|Hy]; [by eexists|].
      apply IH; [by eexists | done].
    + intros Hall.
      destruct (Hall x) as [b ->]; [left|]. simpl.
      destruct (proj2 IH) as [rest ->]; [|by eexists].
      intros y Hy. apply Hall. by right.
Qed.

Lemma Array_map_length {A B : Type} (f : A → Completion B) xs ys :
  Array_map f xs = Ok ys → length ys = length xs.
Proof.
  revert ys. induction xs as [|x xs IH]; intros ys; simpl.
  - by intros [= <-].
  - destruct (f x) as [b|e]; [|done]. simpl.
    destruct (Array_map f xs) as [rest|e]; [|done]. simpl.
    intros [= <-]. simpl. f_equal. by apply IH.
Qed.

(** X19: a row is rendered exactly for a record whose [address] is
    neither absent nor [null], else the render throws; the cells show the
    [name] and [email] fields; and the City cell shows the value the table
    is sorted by under ["address.city"] whenever the address is truthy (for
    a falsy address the sort uses the address itself and the cell shows
    [undefined]). *)
Theorem X19_row_cells :
  ∀ u : User,
    (returns (renderRow u) ↔ hasAddress u) ∧
    (¬ hasAddress u → renderRow u = Throw TypeError) ∧
    (∀ row,
       renderRow u = Ok row →
       rowKey row = default JUndefined (u !! "id") ∧
       nameCell row = default JUndefined (u !! "name") ∧
       emailCell row = default JUndefined (u !! "email") ∧
       getNestedValue (JObj u) "address.city"
       = Ok (if truthy (addressOf u) then cityCell row else addressOf u)).
Proof.
  intros u. split; [apply renderRow_returns|]. split.
  - intros Hno. destruct (renderRow u) as [row|[]] eqn:E; [|done].
    exfalso. apply Hno. apply renderRow_returns. by eexists.
  - intros row. rewrite renderRow_unfold.
    destruct (getProp (addressOf u) "city") as [city|e] eqn:Hcity; [|done].
    simpl. intros [= <-]. simpl. repeat split.
    change "address.city"%string with ("address" ++ String "." "city")%string.
    rewrite getNestedValue_dot, getNestedValue_segment by reflexivity.
    simpl. fold (addressOf u).
    rewrite getNestedValue_segment by reflexivity.
    rewrite Hcity. by destruct (truthy (addressOf u)).
Qed.

Section RenderFacts.
Variable StringToNumber : string → option Z.

#[local] Abbreviation processedOf s :=
  (processedUsers StringToNumber (users (app s)) (searchQuery (app s))
                  (sortColumn (app s)) (sortDirection (app s))).

#[local] Abbreviation paginatedOf s processed :=
  (paginatedUsers processed (page (app s)) (itemsPerPage (app s))).

Lemma render_error s processed :
  processedOf s = Ok processed →
  errorShown (error s) = true →
  render StringToNumber s = Ok (ErrorText (default ""%string (error s))).
Proof. intros Hp He. unfold render. by rewrite Hp, He. Qed.

Lemma render_loading s processed :
  processedOf s = Ok processed →
  errorShown (error s) = false → loading s = true →
  render StringToNumber s = Ok (Dashboard (searchQuery (app s)) Spinner).
Proof. intros Hp He Hl. unfold render. by rewrite Hp, He, Hl. Qed.

Lemma render_table s processed :
  processedOf s = Ok processed →
  errorShown (error s) = false → loading s = false →
  render StringToNumber s
  = (let* rows := Array_map renderRow (paginatedOf s processed) in
     Ok (Dashboard (searchQuery (app s))
           (Table (titleSortDirection "name" (app s))
                  (titleSortDirection "email" (app s))
                  (titleSortDirection "address.city" (app s))
                  rows
                  {| shownPage := page (app s);
                     shownNumberOfPages :=
                       numberOfPages processed (itemsPerPage (app s));
                     shownLabel :=
                       paginationLabel processed (page (app s))
                                       (itemsPerPage (app s));
                     shownItemsPerPage := itemsPerPage (app s) |}))).
Proof.
  intros Hp He Hl. unfold render. rewrite Hp, He, Hl. simpl.
  by destruct (Array_map renderRow _).
Qed.

End RenderFacts.

(** X20: what a render gives.  When the pipeline throws, so does the
    render, also while an error or the spinner would be shown.  Otherwise a
    non-empty error message is shown alone; else, while loading, the search
    bar with the spinner; else the table, and the render then returns
    exactly when every record on the current page has an [address] that is
    neither absent nor [null], with one row per record of the page.  An
    error whose message is empty is treated as no error. *)
Theorem X20_render_outcome :
  ∀ StringToNumber (s : Screen),
    (processedUsers StringToNumber (users (app s)) (searchQuery (app s))
                    (sortColumn (app s)) (sortDirection (app s))
     = Throw TypeError →
     render StringToNumber s = Throw TypeError) ∧
    (∀ processed,
       processedUsers StringToNumber (users (app s)) (searchQuery (app s))
                      (sortColumn (app s)) (sortDirection (app s))
       = Ok processed →
       (∀ message,
          error s = Some message → message ≠ ""%string →
          render StringToNumber s = Ok (ErrorText message)) ∧
       (errorShown (error s) = false → loading s = true →
        render StringToNumber s
        = Ok (Dashboard (searchQuery (app s)) Spinner)) ∧
       (errorShown (error s) = false → loading s = false →
        (returns (render StringToNumber s) ↔
         ∀ u, u ∈ paginatedUsers processed (page (app s))
                                 (itemsPerPage (app s)) →
              hasAddress u) ∧
        (∀ view,
           render StringToNumber s = Ok view →
           ∃ names emails cities rows pagination,
             view = Dashboard (searchQuery (app s))
                      (Table names emails cities rows pagination) ∧
             length rows
             = length (paginatedUsers processed (page (app s))
                                      (itemsPerPage (app s)))))) ∧
    render StringToNumber (setError (Some ""%string) s)
    = render StringToNumber (setError None s).
Proof.
  intros S s. split; [|split].
  - intros Hp. unfold render. by rewrite Hp.
  - intros processed Hp. split; [|split].
    + intros message He Hne.
      rewrite (render_error S s processed Hp); rewrite He; [done|].
      by apply truthy_JStr.
    + by apply (render_loading S s processed).
    + intros He Hl. rewrite (render_table S s processed Hp He Hl).
      split.
      * transitivity
          (returns (Array_map renderRow
                      (paginatedUsers processed (page (app s))
                                      (itemsPerPage (app s))))).
        { destruct (Array_map renderRow _) as [rows|e]; simpl; split;
            try (intros [? ?]; done); by eexists. }
        rewrite Array_map_returns.
        split; intros H u Hu; apply renderRow_returns; auto.
      * intros view.
        destruct (Array_map renderRow _) as [rows|e] eqn:Hrows; [|done].
        simpl. intros [= <-]. do 5 eexists. split; [reflexivity|].
        by apply Array_map_length in Hrows.
  - reflexivity.
Qed.




(** ** Choosing the sort column *)

(** X22: pressing a column header makes that column the sort column and
    leaves the users, the search term, the page and the page size alone;
    on another column than the active one it sets the direction to
    ascending; the third press on a header does what the first did; and
    after a press the pressed title, and no other, carries the direction
    mark. *)
Theorem X22_handleSort_selects :
  ∀ (column : string) (st : AppState),
    sortColumn (handleSort column st) = column ∧
    (users (handleSort column st) = users st ∧
     searchQuery (handleSort column st) = searchQuery st ∧
     page (handleSort column st) = page st ∧
     itemsPerPage (handleSort column st) = itemsPerPage st) ∧
    (sortColumn st ≠ column →
     sortDirection (handleSort column st) = ascending) ∧
    handleSort column (handleSort column (handleSort column st))
    = handleSort column st ∧
    (∀ title,
       titleSortDirection title (handleSort column st)
       = if decide (title = column)
         then Some (sortDirection (handleSort column st))
         else None).
Proof.
  intros column st.
  assert (∀ st', sortColumn (handleSort column st') = column) as Hcol.
  { intros [us q col dir p n]. unfold handleSort. simpl.
    by destruct (String.eqb_spec col column). }
  assert (∀ st', sortColumn st' = column →
                 handleSort column (handleSort column st') = st') as Htwice.
  { intros [us q col dir p n]. simpl. intros ->. unfold handleSort. simpl.
    rewrite String.eqb_refl. simpl. rewrite String.eqb_refl.
    by destruct dir. }
  split; [apply Hcol|]. split; [|split; [|split]].
  - destruct st as [us q col dir p n]. unfold handleSort. simpl.
    by destruct (String.eqb_spec col column).
  - destruct st as [us q col dir p n]. unfold handleSort. simpl.
    intros Hne. by destruct (String.eqb_spec col column).
  - apply Htwice, Hcol.
  - intros title. unfold titleSortDirection. rewrite Hcol.
    destruct (String.eqb_spec column title) as [->|Hne];
      destruct (decide _); congruence.
Qed.

(** ** Splitting and joining *)

Lemma Array_join_cons sep seg segs :
  segs ≠ [] →
  Array_join sep (seg :: segs)
  = (seg ++ String sep (Array_join sep segs))%string.
Proof. by destruct segs. Qed.

(** X23: the segments of a path, joined by the separator, give the path
    back; no segment holds the separator; there is one segment more than
    there are separators in the path (so never none); and a list of
    segments free of the separator is what splitting their join returns. *)
Theorem X23_split_join :
  (∀ sep path,
     Array_join sep (String_split sep path) = path ∧
     Forall (fun seg => mentions sep seg = false) (String_split sep path) ∧
     length (String_split sep path) = S (count_unit sep path)) ∧
  (∀ sep segs,
     segs ≠ [] →
     Forall (fun seg => mentions sep seg = false) segs →
     String_split sep (Array_join sep segs) = segs).
Proof.
  split.
  - intros sep path. induction path as [|c path (IHj & IHf & IHl)]; simpl.
    + repeat split. by repeat constructor.
    + destruct (Ascii.eqb_spec c sep) as [->|Hne].
      * rewrite Array_join_cons by apply String_split_nonempty.
        rewrite IHj. string_app. cbn [length]. rewrite IHl.
        repeat split. by constructor.
      * destruct (String_split sep path) as [|seg segs] eqn:E.
        { by apply String_split_nonempty in E. }
        apply Forall_cons in IHf as [Hseg Hsegs].
        split; [|split].
        -- destruct segs as [|seg' segs]; simpl in *; by rewrite <- IHj.
        -- constructor; [|done]. simpl.
           destruct (Ascii.eqb_spec c sep); [done|]. done.
        -- done.
  - intros sep segs Hne Hfree.
    induction segs as [|seg segs IH]; [done|].
    apply Forall_cons in Hfree as [Hseg Hsegs].
    destruct segs as [|seg' segs].
    + simpl. by apply String_split_single.
    + rewrite Array_join_cons by done.
      rewrite String_split_app, String_split_single by done.
      simpl. f_equal. by apply IH.
Qed.

(** ** The page index under the handlers *)

Lemma numberOfPages_antitone {A : Type} (rows : list A) size size' :
  0 < size' ≤ size → numberOfPages rows size ≤ numberOfPages rows size'.
Proof.
  intros Hs.
  pose proof (numberOfPages_ceiling rows size ltac:(lia)) as Hn.
  pose proof (numberOfPages_ceiling rows size' ltac:(lia)) as Hn'.
  cbv zeta in Hn, Hn'.
  set (n := numberOfPages rows size) in *.
  set (n' := numberOfPages rows size') in *. clearbody n n'.
  pose proof (Nat2Z.is_nonneg (length rows)) as HL.
  assert (0 ≤ n') as Hn0 by nia.
  destruct (Z.le_gt_cases n n') as [?|Hgt]; [done|].
  assert (n' * size ≤ (n - 1) * size) by nia.
  assert (n' * size' ≤ n' * size) by nia.
  lia.
Qed.

(** X24: choosing a page size that is not larger than the current one
    keeps a page index that was in range in range; a new search puts the
    index on page 0, which is in range exactly when some row is left. *)
Theorem X24_page_stays_in_range :
  (∀ (A : Type) (rows : list A) (n : Z) (st : AppState),
     0 < n ≤ itemsPerPage st →
     pageInRange rows (page st) (itemsPerPage st) →
     pageInRange rows (page (onItemsPerPageChange n st))
                 (itemsPerPage (onItemsPerPageChange n st))) ∧
  (∀ (A : Type) (rows : list A) (query : string) (st : AppState),
     0 < itemsPerPage st →
     (pageInRange rows (page (handleSearch query st))
                  (itemsPerPage (handleSearch query st))
      ↔ rows ≠ [])).
Proof.
  split.
  - intros A rows n st Hn. unfold pageInRange. simpl.
    pose proof (numberOfPages_antitone rows (itemsPerPage st) n Hn). lia.
  - intros A rows query st Hs. unfold pageInRange. simpl.
    pose proof (numberOfPages_ceiling rows (itemsPerPage st) Hs) as Hc.
    cbv zeta in Hc.
    set (k := numberOfPages rows (itemsPerPage st)) in *. clearbody k.
    split.
    + intros Hk ->. simpl in Hc. nia.
    + intros Hne. destruct rows; [done|]. simpl in Hc. nia.
Qed.

End FurtherProperties.

(** ** The further statements at work

    Instances of the further statements, evaluated in [exampleEngine]. *)

Lemma X1_validateEmail_shape_witness :
  validateEmail "ann.lee@mail.example.org" = true ∧
  ∃ l d t,
    "test@gmail.com"%string = (l ++ String "@" (d ++ String "." t))%string ∧
    solid l ∧ solid d ∧ solid t.
Proof.
  split.
  - apply X1_validateEmail_shape.
    exists "ann.lee"%string, "mail.example"%string, "org"%string.
    repeat split; done.
  - apply X1_validateEmail_shape. reflexivity.
Defined.

Lemma X2_validateEmail_accepts_only_witness :
  all_units (fun c => negb (is_space c)) "test@gmail.com" = true ∧
  count_unit "@" "test@gmail.com" = 1%nat ∧
  (5 ≤ String.length "test@gmail.com")%nat.
Proof.
  apply X2_validateEmail_accepts_only. reflexivity.
Defined.

Lemma X3_session_round_trip_witness :
  let fresh := {| storage := ∅; route := "Login"; alerts := [] |} in
  route (checkLoginStatus
           {| storage := storage (handleLogin "test@gmail.com" "pass123" fresh);
              route := "Login"; alerts := [] |}) = "Home"%string ∧
  checkLoginStatus
    {| storage := storage (handleLogin "test@gmail.com" "nope" fresh);
       route := "Login"; alerts := [] |}
  = {| storage := storage (handleLogin "test@gmail.com" "nope" fresh);
       route := "Login"; alerts := [] |}.
Proof.
  intros fresh.
  destruct X3_session_round_trip as (Hin & _ & Hout).
  split.
  - by apply (Hin fresh).
  - apply (Hout "test@gmail.com"%string "nope"%string fresh);
      [by intros [_ ?] | reflexivity | reflexivity].
Defined.

Lemma X4_filter_throws_without_name_witness :
  filterStage [userRecord 1 "Ann" "ann@x.org" "Rome"; {[ "id" := JNum 2 ]}]
              "an"
  = Throw TypeError.
Proof.
  apply (X4_filter_throws_without_name _ "an"%string); [done|].
  exists {[ "id" := JNum 2 ]}. split.
  - apply elem_of_cons. right. apply list_elem_of_here.
  - intros [n Hn]. discriminate.
Defined.

Lemma X6_filter_term_case_witness :
  filterStage [userRecord 1 "Ann" "ann@x.org" "Rome"] "aNn"
  = filterStage [userRecord 1 "Ann" "ann@x.org" "Rome"] "ANN".
Proof.
  apply X6_filter_term_case. reflexivity.
Defined.

Lemma X8_comparator_on_strings_witness :
  comparator noNumber "address.city" ascending
    (userRecord 1 "Ann" "ann@x.org" "ROME") (userRecord 2 "Bob" "bob@x.org" "rome")
  = Ok 0 ∧
  comparator noNumber "name" descending
    (userRecord 1 "ann" "ann@x.org" "Rome") (userRecord 2 "Bob" "bob@x.org" "Oslo")
  = Ok 1.
Proof.
  split.
  - apply (X8_comparator_on_strings noNumber "address.city"%string
             _ _ "ROME"%string "rome"%string); reflexivity.
  - apply (X8_comparator_on_strings noNumber "name"%string
             _ _ "ann"%string "Bob"%string); reflexivity.
Defined.

Lemma X9_sort_of_ties_is_identity_witness :
  let xs := [userRecord 2 "Bob" "bob@x.org" "Oslo";
             userRecord 1 "Ann" "ann@x.org" "Rome"] in
  sortStage noNumber xs "phone" descending = Ok xs.
Proof.
  intros xs. apply (proj2 X9_sort_of_ties_is_identity).
  intros r Hr. apply list_elem_of_In in Hr. simpl in Hr.
  destruct Hr as [<- | [<- | []]]; reflexivity.
Defined.

Lemma X10_sort_idempotent_witness :
  let xs := [userRecord 2 "Bob" "bob@x.org" "Oslo";
             userRecord 1 "Ann" "ann@x.org" "Rome";
             userRecord 3 "Cy" "cy@x.org" "oslo"] in
  ∃ out,
    sortStage noNumber xs "address.city" ascending = Ok out ∧
    sortStage noNumber out "address.city" ascending = Ok out.
Proof.
  intros xs.
  destruct (sortStage noNumber xs "address.city" ascending) as [out|e] eqn:E;
    [|by rewrite sortStage_pure in E].
  exists out. split; [done|].
  apply (X10_sort_idempotent noNumber xs); [|done].
  apply stringKeys_consistent. intros r Hr.
  apply list_elem_of_In in Hr. simpl in Hr.
  destruct Hr as [<- | [<- | [<- | []]]]; eexists; reflexivity.
Defined.

Lemma X12_descending_reverses_without_ties_witness :
  let ann := userRecord 1 "Ann" "ann@x.org" "Rome" in
  let bob := userRecord 2 "Bob" "bob@x.org" "Oslo" in
  let cy := userRecord 3 "Cy" "cy@x.org" "Bern" in
  sortStage noNumber [ann; bob; cy] "address.city" ascending
  = Ok [cy; bob; ann] ∧
  sortStage noNumber [ann; bob; cy] "address.city" descending
  = Ok [ann; bob; cy].
Proof.
  intros ann bob cy.
  destruct (X12_descending_reverses_without_ties noNumber [ann; bob; cy]
              "address.city"%string) as (up & Hup & Hdown).
  - done.
  - apply stringKeys_consistent. intros r Hr.
    apply list_elem_of_In in Hr. simpl in Hr.
    destruct Hr as [<- | [<- | [<- | []]]]; eexists; reflexivity.
  - assert (∀ a b : User, a !! "id" ≠ b !! "id" → a ≠ b) as Hid
      by (intros a b Hne ->; done).
    assert (ann ≠ bob) as Hab by (by apply Hid).
    assert (ann ≠ cy) as Hac by (by apply Hid).
    assert (bob ≠ cy) as Hbc by (by apply Hid).
    constructor; [rewrite !elem_of_cons, elem_of_nil; tauto|].
    constructor; [rewrite elem_of_cons, elem_of_nil; tauto|].
    constructor; [apply not_elem_of_nil | constructor].
  - intros a b Ha Hb Ht.
    apply list_elem_of_In in Ha, Hb. simpl in Ha, Hb.
    destruct Ha as [<- | [<- | [<- | []]]], Hb as [<- | [<- | [<- | []]]];
      try reflexivity; exfalso; destruct Ht as [H1 H2];
      vm_compute in H1; vm_compute in H2; congruence.
  - assert (up = [cy; bob; ann]) as ->.
    { vm_compute in Hup. injection Hup as <-. reflexivity. }
    split; [exact Hup | exact Hdown].
Defined.

Lemma X13_page_fill_witness :
  let rows : list Z := seqZ 100 12 in
  Z.of_nat (length (paginatedUsers rows 1 5)) = 5 ∧
  0 < Z.of_nat (length (paginatedUsers rows 2 5)) ≤ 5.
Proof.
  intros rows.
  destruct (X13_page_fill Z rows 1 5) as (_ & Hfull & _); [lia..|].
  destruct (X13_page_fill Z rows 2 5) as (_ & _ & Hlast & _); [lia..|].
  assert (numberOfPages rows 5 = 3) as Hn
    by (rewrite numberOfPages_div; reflexivity).
  rewrite Hn in Hfull, Hlast.
  split; [apply Hfull; lia | apply Hlast; lia].
Defined.

Lemma X14_page_row_index_witness :
  paginatedUsers (seqZ 100 12) 2 5 !! 1%nat = Some 111.
Proof.
  rewrite (X14_page_row_index Z (seqZ 100 12) 2 5 1) by lia.
  reflexivity.
Defined.

Lemma X15_page_is_a_window_witness :
  Z.of_nat (length (paginatedUsers (seqZ 100 12) (-2) 5)) ≤ 5 ∧
  paginatedUsers (seqZ 100 12) (-2) 5 = [102; 103; 104; 105; 106].
Proof.
  split; [|reflexivity].
  apply (X15_page_is_a_window Z (seqZ 100 12) (-2) 5). lia.
Defined.

Lemma X16_label_counts_rows_witness :
  let rows : list Z := seqZ 100 12 in
  paginationLabel rows 2 5 = "11-12 of 12"%string ∧
  Z.of_nat (length (paginatedUsers rows 2 5))
  = labelTo rows 2 5 - labelFrom 2 5 + 1 ∧
  paginationLabel rows 2 15 = "31-12 of 12"%string ∧
  labelTo rows 2 15 < labelFrom 2 15.
Proof.
  intros rows.
  destruct (proj1 X16_label_counts_rows Z rows 2 5) as [Hin _]; [lia..|].
  destruct (proj1 X16_label_counts_rows Z rows 2 15) as [_ Hout]; [lia..|].
  split; [reflexivity|]. split; [apply Hin; simpl; lia|].
  split; [reflexivity|]. apply Hout. simpl. lia.
Defined.


Lemma X18_fetch_settles_witness :
  let bob := userRecord 2 "Bob" "bob@x.org" "Oslo" in
  users (app (fetchEffect
                (Fulfilled {| ok := true; json := Fulfilled [bob] |})
                mountedScreen)) = [bob] ∧
  error (fetchEffect (Fulfilled {| ok := false; json := Fulfilled [bob] |})
                     mountedScreen)
  = Some "Network response was not ok"%string ∧
  users (app (fetchEffect (Rejected "Failed to fetch") mountedScreen)) = [].
Proof.
  intros bob. split; [|split].
  - destruct (X18_fetch_settles
                (Fulfilled {| ok := true; json := Fulfilled [bob] |})
                mountedScreen) as (_ & _ & _ & Hok & _).
    by apply (Hok _ [bob] eq_refl).
  - destruct (X18_fetch_settles
                (Fulfilled {| ok := false; json := Fulfilled [bob] |})
                mountedScreen) as (_ & _ & _ & _ & Hbad & _).
    by apply (Hbad _ eq_refl).
  - destruct (X18_fetch_settles (Rejected "Failed to fetch") mountedScreen)
      as (_ & _ & _ & _ & _ & _ & Hrej).
    by apply (Hrej _ eq_refl).
Defined.

Lemma X19_row_cells_witness :
  (∃ row,
     renderRow (userRecord 1 "Ann" "ann@x.org" "Rome") = Ok row ∧
     getNestedValue (JObj (userRecord 1 "Ann" "ann@x.org" "Rome"))
                    "address.city" = Ok (cityCell row)) ∧
  renderRow {[ "name" := JStr "Bob" ]} = Throw TypeError.
Proof.
  split.
  - destruct (renderRow (userRecord 1 "Ann" "ann@x.org" "Rome"))
      as [row|e] eqn:E; [|discriminate].
    exists row. split; [reflexivity|].
    destruct (X19_row_cells (userRecord 1 "Ann" "ann@x.org" "Rome"))
      as (_ & _ & Hcells).
    destruct (Hcells row E) as (_ & _ & _ & Hcity). exact Hcity.
  - apply (X19_row_cells {[ "name" := JStr "Bob" ]}).
    intros [H _]. by apply H.
Defined.

Lemma X20_render_outcome_witness :
  let listing (us : list User) (e : option string) (l : bool) : Screen :=
    {| app := setUsers us initialState; loading := l; error := e |} in
  render noNumber (listing [{[ "name" := JStr "Bob" ]}] (Some "down") false)
  = Ok (ErrorText "down") ∧
  render noNumber (listing [{[ "name" := JStr "Bob" ]}] None true)
  = Ok (Dashboard "" Spinner) ∧
  ¬ returns (render noNumber (listing [{[ "name" := JStr "Bob" ]}] None false)).
Proof.
  intros listing. split; [|split].
  - destruct (X20_render_outcome noNumber
                (listing [{[ "name" := JStr "Bob" ]}] (Some "down"%string)
                         false)) as (_ & Hshow & _).
    destruct (Hshow [{[ "name" := JStr "Bob" ]}] eq_refl) as (Herr & _).
    by apply Herr.
  - destruct (X20_render_outcome noNumber
                (listing [{[ "name" := JStr "Bob" ]}] None true))
      as (_ & Hshow & _).
    destruct (Hshow [{[ "name" := JStr "Bob" ]}] eq_refl) as (_ & Hload & _).
    by apply Hload.
  - destruct (X20_render_outcome noNumber
                (listing [{[ "name" := JStr "Bob" ]}] None false))
      as (_ & Hshow & _).
    destruct (Hshow [{[ "name" := JStr "Bob" ]}] eq_refl) as (_ & _ & Htable).
    destruct (Htable eq_refl eq_refl) as [Hiff _].
    intros Hret. pose proof (proj1 Hiff Hret) as Hall.
    destruct (Hall {[ "name" := JStr "Bob" ]}) as [Hne _];
      [vm_compute; apply list_elem_of_here | by apply Hne].
Defined.


Lemma X22_handleSort_selects_witness :
  sortDirection (handleSort "email" (handleSort "name" initialState))
  = ascending ∧
  sortDirection (handleSort "name" initialState) = descending.
Proof.
  split; [|reflexivity].
  by apply (X22_handleSort_selects "email" (handleSort "name" initialState)).
Defined.

Lemma X23_split_join_witness :
  String_split "." (Array_join "." ["address"; "geo"; "lat"]%string)
  = ["address"; "geo"; "lat"]%string.
Proof.
  apply (proj2 X23_split_join); [done|].
  repeat constructor.
Defined.

Lemma X24_page_stays_in_range_witness :
  let st := {| users := twelveUsers; searchQuery := ""; sortColumn := "name";
               sortDirection := ascending; page := 1; itemsPerPage := 10 |} in
  pageInRange twelveUsers (page (onItemsPerPageChange 5 st))
              (itemsPerPage (onItemsPerPageChange 5 st)) ∧
  pageInRange twelveUsers (page (handleSearch "us" st))
              (itemsPerPage (handleSearch "us" st)).
Proof.
  intros st. destruct X24_page_stays_in_range as [Hshrink Hsearch]. split.
  - apply Hshrink; [simpl; lia|].
    unfold pageInRange. rewrite numberOfPages_div. vm_compute.
    split; discriminate.
  - apply Hsearch; [simpl; lia | discriminate].
Defined.
